(** * Flow hashing of a network 5-tuple: MurmurHash3-32 and Jenkins lookup3

    A shallow embedding of the two C programs of the repository,
    [codesnip/hash/5-tuple-murmur3-hash.c] (Variant A) and the lookup3
    program (Variant B), and the properties of their digests.

    Conventions of the embedding.
    - C integers are [Z]; every conversion to [uint8_t], [uint32_t] or
      [int] is written out ([u8], [u32], [int]).
    - An operation C leaves undefined because of its operands' position (a
      shift whose count is not in [0, 32), an access outside an array)
      makes the computation fail. Arithmetic on [int] is two's complement
      and wraps, [<<] on [int] included, as in CompCert C and as GCC and
      Clang compile it: the values of the digests rest on this reading.
      ISO C leaves a [<<] on [int] whose result does not fit in [int]
      undefined; [shl_int_iso] is that reading, and
      [jenkins_hash_5tuple_with] is Variant B under either of the two.
    - The byte order of the host is a parameter: it decides what [memcpy]
      copies from an integer and what a read through a [uint32_t] pointer
      returns. Such a read, at a multiple of 4 bytes from the start of the
      array, assembles four bytes; alignment of the array itself is not
      modelled.
    - Every call of a rotate is recorded in a trace of rotate counts that
      the computation threads along.
    - An automatic array starts with whatever the stack holds; these
      initial contents are an explicit argument ([junk]).
    - Function arguments are [Z]; [valid_key] states the ranges of their C
      types where a statement depends on them. *)

From Stdlib Require Import ZArith List Lia Bool.
Import ListNotations.
Local Open Scope Z_scope.

(** ** C integer conversions *)

Definition u8 (x : Z) : Z := x mod 2 ^ 8.
Definition u32 (x : Z) : Z := x mod 2 ^ 32.
(** Conversion to [int]: 32 bits, two's complement. *)
Definition int (x : Z) : Z := (x + 2 ^ 31) mod 2 ^ 32 - 2 ^ 31.

(** ** The computation monad: failure and the trace of rotate counts *)

Definition Trace : Type := list Z.
Definition M (A : Type) : Type := Trace -> option (A * Trace).

Definition ret {A} (a : A) : M A := fun t => Some (a, t).
Definition fail {A} : M A := fun _ => None.
Definition bind {A B} (m : M A) (f : A -> M B) : M B :=
  fun t => match m t with
           | Some (a, t') => f a t'
           | None => None
           end.
Definition lift {A} (o : option A) : M A :=
  fun t => match o with Some a => Some (a, t) | None => None end.
(** Record one rotate call. *)
Definition tick (r : Z) : M unit := fun t => Some (tt, t ++ [r]).

Notation "x <- m ;; k" := (bind m (fun x => k))
  (at level 61, m at next level, right associativity).
Notation "' p <- m ;; k" := (bind m (fun x => let p := x in k))
  (at level 61, p pattern, m at next level, right associativity).

(** The value a computation returns, and the rotate counts it used,
    started on the empty trace. *)
Definition result {A} (m : M A) : option A :=
  match m [] with Some (a, _) => Some a | None => None end.
Definition rotations {A} (m : M A) : option Trace :=
  match m [] with Some (_, t) => Some t | None => None end.

(** ** Shifts *)

Definition count_ok (k : Z) : bool := (0 <=? k) && (k <? 32).

(** [x << k] and [x >> k] on [uint32_t]. *)
Definition shl32 (x k : Z) : M Z :=
  if count_ok k then ret (u32 (Z.shiftl x k)) else fail.
Definition shr32 (x k : Z) : M Z :=
  if count_ok k then ret (Z.shiftr x k) else fail.
(** [x << k] and [x >> k] on an operand promoted to [int]. *)
Definition shl_int (x k : Z) : M Z :=
  if count_ok k then ret (int (Z.shiftl x k)) else fail.
Definition shr_int (x k : Z) : M Z :=
  if count_ok k then ret (Z.shiftr x k) else fail.

(** ** Memory: byte arrays *)

Inductive endianness : Type := LittleEndian | BigEndian.

Fixpoint upd (buf : list Z) (i : nat) (v : Z) : list Z :=
  match buf, i with
  | [], _ => []
  | _ :: rest, O => v :: rest
  | b :: rest, S i' => b :: upd rest i' v
  end.

(** [buf[i]] and [buf[i] = v]; outside the array both fail. *)
Definition load8 (buf : list Z) (i : Z) : M Z :=
  if 0 <=? i then lift (nth_error buf (Z.to_nat i)) else fail.
Definition store8 (buf : list Z) (i : Z) (v : Z) : M (list Z) :=
  if (0 <=? i) && (i <? Z.of_nat (length buf))
  then ret (upd buf (Z.to_nat i) v) else fail.

(** The [n] low bytes of an integer, least significant first, and the
    object representation of an [n]-byte unsigned integer, in address
    order, on a host of the given byte order. *)
Fixpoint le_bytes (n : nat) (x : Z) : list Z :=
  match n with
  | O => []
  | S n' => x mod 2 ^ 8 :: le_bytes n' (x / 2 ^ 8)
  end.
Definition repr (e : endianness) (n : nat) (x : Z) : list Z :=
  match e with
  | LittleEndian => le_bytes n x
  | BigEndian => rev (le_bytes n x)
  end.

(** [memcpy(&buf[off], &x, n)] where [src] is the representation of [x]. *)
Fixpoint memcpy (buf : list Z) (off : Z) (src : list Z) : M (list Z) :=
  match src with
  | [] => ret buf
  | b :: rest => buf' <- store8 buf off b ;; memcpy buf' (off + 1) rest
  end.

(** The value of bytes given least significant first, and the unsigned
    integer whose object representation on the host is the given bytes. *)
Fixpoint le_value (bs : list Z) : Z :=
  match bs with
  | [] => 0
  | b :: rest => b + 2 ^ 8 * le_value rest
  end.
Definition value_of (e : endianness) (bs : list Z) : Z :=
  match e with
  | LittleEndian => le_value bs
  | BigEndian => le_value (rev bs)
  end.

(** Reading a [uint32_t] through a pointer into a byte array at byte
    offset [off] ([blocks[i]] with [off = 4 * i]). *)
Definition load32 (e : endianness) (buf : list Z) (off : Z) : M Z :=
  b0 <- load8 buf off ;;
  b1 <- load8 buf (off + 1) ;;
  b2 <- load8 buf (off + 2) ;;
  b3 <- load8 buf (off + 3) ;;
  ret (value_of e [b0; b1; b2; b3]).

(** ** Variant A: 5-tuple-murmur3-hash.c *)

Definition rotl32 (x r : Z) : M Z :=
  _ <- tick r ;;
  hi <- shl32 x r ;;
  lo <- shr32 x (32 - r) ;;
  ret (Z.lor hi lo).

Definition c1 : Z := 0xcc9e2d51.
Definition c2 : Z := 0x1b873593.

(** The [for] loop over the blocks: [n] iterations left, index [i]. *)
Fixpoint murmur3_blocks (e : endianness) (key : list Z) (n : nat) (i : Z)
    (h1 : Z) : M Z :=
  match n with
  | O => ret h1
  | S n' =>
      k1 <- load32 e key (4 * i) ;;
      let k1 := u32 (k1 * c1) in
      k1 <- rotl32 k1 15 ;;
      let k1 := u32 (k1 * c2) in
      let h1 := Z.lxor h1 k1 in
      h1 <- rotl32 h1 13 ;;
      let h1 := u32 (u32 (h1 * 5) + 0xe6546b64) in
      murmur3_blocks e key n' (i + 1) h1
  end.

Definition murmur3_32 (e : endianness) (key : list Z) (len : Z) (seed : Z)
    : M Z :=
  let h1 := seed in
  let nblocks := len / 4 in
  h1 <- murmur3_blocks e key (Z.to_nat nblocks) 0 h1 ;;
  let tail := nblocks * 4 in
  let k1 := 0 in
  let sw := Z.land len 3 in
  (* case 3 *)
  k1 <- (if sw =? 3
         then t2 <- load8 key (tail + 2) ;;
              s <- shl_int t2 16 ;;
              ret (Z.lxor k1 (u32 s))
         else ret k1) ;;
  (* case 2, reached from case 3 by falling through *)
  k1 <- (if (sw =? 3) || (sw =? 2)
         then t1 <- load8 key (tail + 1) ;;
              s <- shl_int t1 8 ;;
              ret (Z.lxor k1 (u32 s))
         else ret k1) ;;
  (* case 1, reached from case 2 by falling through *)
  h1 <- (if (sw =? 3) || (sw =? 2) || (sw =? 1)
         then t0 <- load8 key tail ;;
              let k1 := Z.lxor k1 t0 in
              let k1 := u32 (k1 * c1) in
              k1 <- rotl32 k1 15 ;;
              let k1 := u32 (k1 * c2) in
              ret (Z.lxor h1 k1)
         else ret h1) ;;
  let h1 := u32 (Z.lxor h1 len) in
  s <- shr32 h1 16 ;;
  let h1 := Z.lxor h1 s in
  let h1 := u32 (h1 * 0x85ebca6b) in
  s <- shr32 h1 13 ;;
  let h1 := Z.lxor h1 s in
  let h1 := u32 (h1 * 0xc2b2ae35) in
  s <- shr32 h1 16 ;;
  let h1 := Z.lxor h1 s in
  ret h1.

(** The statements of [murmurhash3_5tuple] that fill [data]
    (lines 87-92). *)
Definition murmur3_pack (e : endianness) (junk : list Z)
    (src_ip dst_ip src_port dst_port protocol : Z) : M (list Z) :=
  let data := junk in
  data <- memcpy data 0 (repr e 4 src_ip) ;;
  data <- memcpy data 4 (repr e 4 dst_ip) ;;
  data <- memcpy data 8 (repr e 2 src_port) ;;
  data <- memcpy data 10 (repr e 2 dst_port) ;;
  data <- store8 data 12 protocol ;;
  ret data.

Definition murmurhash3_5tuple (e : endianness) (junk : list Z)
    (src_ip dst_ip src_port dst_port protocol seed : Z) : M Z :=
  data <- murmur3_pack e junk src_ip dst_ip src_port dst_port protocol ;;
  murmur3_32 e data 13 seed.

(** ** Variant B: the lookup3 program *)

(** The macro [rot(x,k)]. *)
Definition rot (x k : Z) : M Z :=
  _ <- tick k ;;
  hi <- shl32 x k ;;
  lo <- shr32 x (32 - k) ;;
  ret (Z.lor hi lo).

Definition state : Type := (Z * Z * Z)%type.

(** The macro [mix(a,b,c)]. *)
Definition mix (s : state) : M state :=
  let '(a, b, c) := s in
  let a := u32 (a - c) in r <- rot c 4 ;;
  let a := Z.lxor a r in let c := u32 (c + b) in
  let b := u32 (b - a) in r <- rot a 6 ;;
  let b := Z.lxor b r in let a := u32 (a + c) in
  let c := u32 (c - b) in r <- rot b 8 ;;
  let c := Z.lxor c r in let b := u32 (b + a) in
  let a := u32 (a - c) in r <- rot c 16 ;;
  let a := Z.lxor a r in let c := u32 (c + b) in
  let b := u32 (b - a) in r <- rot a 19 ;;
  let b := Z.lxor b r in let a := u32 (a + c) in
  let c := u32 (c - b) in r <- rot b 4 ;;
  let c := Z.lxor c r in let b := u32 (b + a) in
  ret (a, b, c).

(** The macro [final(a,b,c)]. *)
Definition final (s : state) : M state :=
  let '(a, b, c) := s in
  let c := Z.lxor c b in r <- rot b 14 ;; let c := u32 (c - r) in
  let a := Z.lxor a c in r <- rot c 11 ;; let a := u32 (a - r) in
  let b := Z.lxor b a in r <- rot a 25 ;; let b := u32 (b - r) in
  let c := Z.lxor c b in r <- rot b 16 ;; let c := u32 (c - r) in
  let a := Z.lxor a c in r <- rot c 4 ;; let a := u32 (a - r) in
  let b := Z.lxor b a in r <- rot a 14 ;; let b := u32 (b - r) in
  let c := Z.lxor c b in r <- rot b 24 ;; let c := u32 (c - r) in
  ret (a, b, c).

(** The statements of [jenkins_hash_5tuple] that fill [key]
    (lines 79-97). *)
Definition jenkins_pack (junk : list Z)
    (src_ip dst_ip src_port dst_port protocol : Z) : M (list Z) :=
  let key := junk in
  key <- store8 key 0 (u8 (Z.land src_ip 0xFF)) ;;
  s <- shr32 src_ip 8 ;;
  key <- store8 key 1 (u8 (Z.land s 0xFF)) ;;
  s <- shr32 src_ip 16 ;;
  key <- store8 key 2 (u8 (Z.land s 0xFF)) ;;
  s <- shr32 src_ip 24 ;;
  key <- store8 key 3 (u8 (Z.land s 0xFF)) ;;
  key <- store8 key 4 (u8 (Z.land dst_ip 0xFF)) ;;
  s <- shr32 dst_ip 8 ;;
  key <- store8 key 5 (u8 (Z.land s 0xFF)) ;;
  s <- shr32 dst_ip 16 ;;
  key <- store8 key 6 (u8 (Z.land s 0xFF)) ;;
  s <- shr32 dst_ip 24 ;;
  key <- store8 key 7 (u8 (Z.land s 0xFF)) ;;
  key <- store8 key 8 (u8 (Z.land src_port 0xFF)) ;;
  s <- shr_int src_port 8 ;;
  key <- store8 key 9 (u8 (Z.land s 0xFF)) ;;
  key <- store8 key 10 (u8 (Z.land dst_port 0xFF)) ;;
  s <- shr_int dst_port 8 ;;
  key <- store8 key 11 (u8 (Z.land s 0xFF)) ;;
  key <- store8 key 12 protocol ;;
  ret key.

(** The expression
    [key[i] | (key[i+1] << 8) | (key[i+2] << 16) | (key[i+3] << 24)],
    of type [int], converted to [uint32_t] as [+=] does. *)
Definition jenkins_word (key : list Z) (i : Z) : M Z :=
  k0 <- load8 key i ;;
  k1 <- load8 key (i + 1) ;;
  s1 <- shl_int k1 8 ;;
  k2 <- load8 key (i + 2) ;;
  s2 <- shl_int k2 16 ;;
  k3 <- load8 key (i + 3) ;;
  s3 <- shl_int k3 24 ;;
  ret (u32 (Z.lor (Z.lor (Z.lor k0 s1) s2) s3)).

Definition jenkins_hash_5tuple (junk : list Z)
    (src_ip dst_ip src_port dst_port protocol seed : Z) : M Z :=
  key <- jenkins_pack junk src_ip dst_ip src_port dst_port protocol ;;
  let length := 13 in
  let c := u32 (u32 (0xdeadbeef + length) + seed) in
  let b := c in
  let a := b in
  w <- jenkins_word key 0 ;; let a := u32 (a + w) in
  w <- jenkins_word key 4 ;; let b := u32 (b + w) in
  w <- jenkins_word key 8 ;; let c := u32 (c + w) in
  a <- (if u32 (length - 12) =? 1
        then k12 <- load8 key 12 ;; ret (u32 (a + k12))
        else ret a) ;;
  '(a, b, c) <- final (a, b, c) ;;
  ret c.

(** ** The specification's side

    From here on the definitions follow the words of the specification
    and of its claims, not the code; the theorems compare the two. *)

Record FlowKey : Type := {
  source_address : Z;
  destination_address : Z;
  source_port : Z;
  destination_port : Z;
  protocol : Z
}.

Definition valid_key (k : FlowKey) : Prop :=
  0 <= source_address k < 2 ^ 32 /\
  0 <= destination_address k < 2 ^ 32 /\
  0 <= source_port k < 2 ^ 16 /\
  0 <= destination_port k < 2 ^ 16 /\
  0 <= protocol k < 2 ^ 8.

(** The functions of the two programs, applied to a [FlowKey]. *)
Definition hashA (e : endianness) (junk : list Z) (k : FlowKey) (seed : Z)
    : M Z :=
  murmurhash3_5tuple e junk (source_address k) (destination_address k)
    (source_port k) (destination_port k) (protocol k) seed.
Definition hashB (junk : list Z) (k : FlowKey) (seed : Z) : M Z :=
  jenkins_hash_5tuple junk (source_address k) (destination_address k)
    (source_port k) (destination_port k) (protocol k) seed.
Definition packA (e : endianness) (junk : list Z) (k : FlowKey)
    : M (list Z) :=
  murmur3_pack e junk (source_address k) (destination_address k)
    (source_port k) (destination_port k) (protocol k).
Definition packB (junk : list Z) (k : FlowKey) : M (list Z) :=
  jenkins_pack junk (source_address k) (destination_address k)
    (source_port k) (destination_port k) (protocol k).

(** Section 4.1 of the specification: the 13 bytes of a key, every field
    least significant byte first, no padding. *)
Definition serialize (k : FlowKey) : list Z :=
  le_bytes 4 (source_address k) ++
  le_bytes 4 (destination_address k) ++
  le_bytes 2 (source_port k) ++
  le_bytes 2 (destination_port k) ++
  [protocol k].

(** The inverse layout: the fields read back from 13 bytes. *)
Definition deserialize (bs : list Z) : FlowKey :=
  {| source_address := le_value (firstn 4 bs);
     destination_address := le_value (firstn 4 (skipn 4 bs));
     source_port := le_value (firstn 2 (skipn 8 bs));
     destination_port := le_value (firstn 2 (skipn 10 bs));
     protocol := nth 12 bs 0 |}.

(** The [i]-th 4-byte block of a byte string, decoded little-endian. *)
Definition block_le (bs : list Z) (i : nat) : Z :=
  le_value (firstn 4 (skipn (4 * i) bs)).

(** Rotation to the left of a 32-bit value, as a function. *)
Definition rotl (x r : Z) : Z :=
  Z.lor (u32 (Z.shiftl x r)) (Z.shiftr x (32 - r)).

(** *** The reference MurmurHash3-32 on a 13-byte key *)

Definition scramble (k : Z) : Z :=
  (rotl (k * 0xcc9e2d51 mod 2 ^ 32) 15 * 0x1b873593) mod 2 ^ 32.

Definition block_round (h k : Z) : Z :=
  (rotl (Z.lxor h (scramble k)) 13 * 5 + 0xe6546b64) mod 2 ^ 32.

Definition fmix32 (h : Z) : Z :=
  let h := Z.lxor h (Z.shiftr h 16) in
  let h := (h * 0x85ebca6b) mod 2 ^ 32 in
  let h := Z.lxor h (Z.shiftr h 13) in
  let h := (h * 0xc2b2ae35) mod 2 ^ 32 in
  Z.lxor h (Z.shiftr h 16).

(** The accumulator after the three full blocks. *)
Definition after_blocks (bs : list Z) (seed : Z) : Z :=
  fold_left block_round [block_le bs 0; block_le bs 1; block_le bs 2] seed.

Definition reference_murmur3_32 (bs : list Z) (seed : Z) : Z :=
  let h := after_blocks bs seed in
  let h := Z.lxor h (scramble (nth 12 bs 0)) in
  fmix32 (Z.lxor h 13).

(** *** Variant B, in the specification's words *)

(** The state after absorbing the key: all three words start at
    [0xdeadbeef + 13 + seed]; word0, word1, word2 go into A, B, C and the
    byte 12 into A. *)
Definition absorbed (bs : list Z) (seed : Z) : state :=
  let init := (0xdeadbeef + 13 + seed) mod 2 ^ 32 in
  ((init + block_le bs 0 + nth 12 bs 0) mod 2 ^ 32,
   (init + block_le bs 1) mod 2 ^ 32,
   (init + block_le bs 2) mod 2 ^ 32).

(** One paired operation of the finalization: [x ^= y; x -= rot(y,r)]. *)
Definition final_pair (x y r : Z) : Z := (Z.lxor x y - rotl y r) mod 2 ^ 32.

(** Six paired operations with the rotate sequence 14, 11, 25, 16, 4, 14,
    as section 4.3 of the specification words the finalization. *)
Definition final_six (s : state) : state :=
  let '(a, b, c) := s in
  let c := final_pair c b 14 in
  let a := final_pair a c 11 in
  let b := final_pair b a 25 in
  let c := final_pair c b 16 in
  let a := final_pair a c 4 in
  let b := final_pair b a 14 in
  (a, b, c).

(** Seven paired operations: the six above and [c ^= b; c -= rot(b,24)]. *)
Definition final_seven (s : state) : state :=
  let '(a, b, c) := final_six s in
  (a, b, final_pair c b 24).

Definition word_C (s : state) : Z := snd s.

Definition sample_key : FlowKey :=
  {| source_address := 0xC0A80101; destination_address := 0x08080808;
     source_port := 12345; destination_port := 80; protocol := 6 |}.
Definition sample_seed : Z := 0x12345678.
Definition sample_junk : list Z := repeat 0 13.

(** *** Auxiliary notions for the statements *)

(** The words the block loop reads, starting at block [i]. *)
Fixpoint blocks_at (e : endianness) (key : list Z) (i : Z) (ws : list Z)
    : Prop :=
  match ws with
  | [] => True
  | w :: ws' =>
      (forall t, load32 e key (4 * i) t = Some (w, t)) /\
      blocks_at e key (i + 1) ws'
  end.

(** What a host of byte order [e] computes from 13 bytes: the blocks are
    read in the host's order. *)
Definition block_host (e : endianness) (bs : list Z) (i : nat) : Z :=
  value_of e (firstn 4 (skipn (4 * i) bs)).

Definition murmur_host (e : endianness) (bs : list Z) (seed : Z) : Z :=
  let h :=
    fold_left block_round
      [block_host e bs 0; block_host e bs 1; block_host e bs 2] seed in
  let h := Z.lxor h (scramble (nth 12 bs 0)) in
  fmix32 (Z.lxor h 13).

(** The bytes [memcpy] and the assignment leave in [data], on a host of
    either byte order. *)
Definition host_layout (e : endianness) (k : FlowKey) : list Z :=
  repr e 4 (source_address k) ++
  repr e 4 (destination_address k) ++
  repr e 2 (source_port k) ++
  repr e 2 (destination_port k) ++
  [protocol k].

(** The fields read back from the 13 bytes a host of byte order [e]
    wrote. *)
Definition deserialize_host (e : endianness) (bs : list Z) : FlowKey :=
  {| source_address := value_of e (firstn 4 bs);
     destination_address := value_of e (firstn 4 (skipn 4 bs));
     source_port := value_of e (firstn 2 (skipn 4 (skipn 4 bs)));
     destination_port := value_of e (firstn 2 (skipn 2 (skipn 4 (skipn 4 bs))));
     protocol := nth 0 (skipn 2 (skipn 2 (skipn 4 (skipn 4 bs)))) 0 |}.

(** The key [k] with its protocol replaced by [p]. *)
Definition with_protocol (k : FlowKey) (p : Z) : FlowKey :=
  {| source_address := source_address k;
     destination_address := destination_address k;
     source_port := source_port k;
     destination_port := destination_port k;
     protocol := p |}.

(** The key [k] with its two ports exchanged. *)
Definition swap_ports (k : FlowKey) : FlowKey :=
  {| source_address := source_address k;
     destination_address := destination_address k;
     source_port := destination_port k;
     destination_port := source_port k;
     protocol := protocol k |}.

(** Byte [i] of an unsigned integer, byte 0 the least significant. *)
Definition byte (i : Z) (x : Z) : Z := (x / 2 ^ (8 * i)) mod 2 ^ 8.

Definition zero_key : FlowKey :=
  {| source_address := 0; destination_address := 0; source_port := 0;
     destination_port := 0; protocol := 0 |}.

(** *** Notions for the further properties *)

(** One line of [mix], [x -= z; x ^= rot(z,r); z += y], and one line of
    [final], as functions of 32-bit values, with the lines undone. *)
Definition mix_line (x z y r : Z) : Z * Z :=
  (Z.lxor ((x - z) mod 2 ^ 32) (rotl z r), (z + y) mod 2 ^ 32).
Definition unmix_line (x' z' y r : Z) : Z * Z :=
  let z := (z' - y) mod 2 ^ 32 in
  ((Z.lxor x' (rotl z r) + z) mod 2 ^ 32, z).
Definition unfinal_pair (x' y r : Z) : Z :=
  Z.lxor ((x' + rotl y r) mod 2 ^ 32) y.

(** What [mix] computes, line by line. *)
Definition mix_value (s : state) : state :=
  let '(a, b, c) := s in
  let '(a, c) := mix_line a c b 4 in
  let '(b, a) := mix_line b a c 6 in
  let '(c, b) := mix_line c b a 8 in
  let '(a, c) := mix_line a c b 16 in
  let '(b, a) := mix_line b a c 19 in
  let '(c, b) := mix_line c b a 4 in
  (a, b, c).

(** The lines of [mix] undone, last line first. *)
Definition unmix (s : state) : state :=
  let '(a, b, c) := s in
  let '(c, b) := unmix_line c b a 4 in
  let '(b, a) := unmix_line b a c 19 in
  let '(a, c) := unmix_line a c b 16 in
  let '(c, b) := unmix_line c b a 8 in
  let '(b, a) := unmix_line b a c 6 in
  let '(a, c) := unmix_line a c b 4 in
  (a, b, c).

(** The lines of [final] undone, last line first. *)
Definition unfinal (s : state) : state :=
  let '(a, b, c) := s in
  let c := unfinal_pair c b 24 in
  let b := unfinal_pair b a 14 in
  let a := unfinal_pair a c 4 in
  let c := unfinal_pair c b 16 in
  let b := unfinal_pair b a 25 in
  let a := unfinal_pair a c 11 in
  let c := unfinal_pair c b 14 in
  (a, b, c).

(** A state of three 32-bit words. *)
Definition valid_state (s : state) : Prop :=
  let '(a, b, c) := s in
  0 <= a < 2 ^ 32 /\ 0 <= b < 2 ^ 32 /\ 0 <= c < 2 ^ 32.

(** The words of the full 4-byte blocks of a byte string, as a host of
    byte order [e] reads them, and the bytes left over after them. *)
Fixpoint blocks_of (e : endianness) (bs : list Z) : list Z :=
  match bs with
  | b0 :: b1 :: b2 :: b3 :: rest =>
      value_of e [b0; b1; b2; b3] :: blocks_of e rest
  | _ => []
  end.
Fixpoint tail_of (bs : list Z) : list Z :=
  match bs with
  | _ :: _ :: _ :: _ :: rest => tail_of rest
  | _ => bs
  end.

(** The left-over bytes, if any, mixed into the accumulator as one
    little-endian partial word. *)
Definition tail_mix (h : Z) (tl : list Z) : Z :=
  match tl with
  | [] => h
  | _ => Z.lxor h (scramble (le_value tl))
  end.

(** MurmurHash3-32 of a byte string of any length: the rounds over the
    full blocks, the left-over bytes, the length, the avalanche. *)
Definition murmur3_any (e : endianness) (bs : list Z) (seed : Z) : Z :=
  let h := fold_left block_round (blocks_of e bs) seed in
  let h := tail_mix h (tail_of bs) in
  fmix32 (Z.lxor h (Z.of_nat (length bs)) mod 2 ^ 32).

(** The rotate counts of that computation: 15 and 13 per full block, one
    more 15 when bytes are left over. *)
Definition murmur3_any_rotations (bs : list Z) : list Z :=
  flat_map (fun _ => [15; 13]) (blocks_of LittleEndian bs) ++
  match tail_of bs with [] => [] | _ => [15] end.

(** Byte values. *)
Definition bytes (bs : list Z) : Prop := Forall (fun b => 0 <= b < 2 ^ 8) bs.

(** *** The ISO C reading of [<<] on [int] *)

(** [x << k] on an operand promoted to [int], as ISO C defines it (C11
    6.5.7): undefined unless the count is in range, [x] is not negative
    and [x * 2^k] fits in [int]. *)
Definition shl_int_iso (x k : Z) : M Z :=
  if count_ok k && (0 <=? x) && (Z.shiftl x k <? 2 ^ 31)
  then ret (Z.shiftl x k) else fail.

(** [jenkins_word] and [jenkins_hash_5tuple] once more, statement by
    statement, with the [<<] on [int] as a parameter. *)
Definition jenkins_word_with (shl : Z -> Z -> M Z) (key : list Z) (i : Z)
    : M Z :=
  k0 <- load8 key i ;;
  k1 <- load8 key (i + 1) ;;
  s1 <- shl k1 8 ;;
  k2 <- load8 key (i + 2) ;;
  s2 <- shl k2 16 ;;
  k3 <- load8 key (i + 3) ;;
  s3 <- shl k3 24 ;;
  ret (u32 (Z.lor (Z.lor (Z.lor k0 s1) s2) s3)).

Definition jenkins_hash_5tuple_with (shl : Z -> Z -> M Z) (junk : list Z)
    (src_ip dst_ip src_port dst_port protocol seed : Z) : M Z :=
  key <- jenkins_pack junk src_ip dst_ip src_port dst_port protocol ;;
  let length := 13 in
  let c := u32 (u32 (0xdeadbeef + length) + seed) in
  let b := c in
  let a := b in
  w <- jenkins_word_with shl key 0 ;; let a := u32 (a + w) in
  w <- jenkins_word_with shl key 4 ;; let b := u32 (b + w) in
  w <- jenkins_word_with shl key 8 ;; let c := u32 (c + w) in
  a <- (if u32 (length - 12) =? 1
        then k12 <- load8 key 12 ;; ret (u32 (a + k12))
        else ret a) ;;
  '(a, b, c) <- final (a, b, c) ;;
  ret c.

(** Variant B on a [FlowKey] under the ISO C reading. *)
Definition hashB_iso (junk : list Z) (k : FlowKey) (seed : Z) : M Z :=
  jenkins_hash_5tuple_with shl_int_iso junk (source_address k)
    (destination_address k) (source_port k) (destination_port k)
    (protocol k) seed.

(** * Properties *)

(** ** Arithmetic of 32-bit values *)

Lemma u32_range x : 0 <= u32 x < 2 ^ 32.
Proof. unfold u32. apply Z.mod_pos_bound. lia. Qed.

Lemma u32_small x : 0 <= x < 2 ^ 32 -> u32 x = x.
Proof. intros H. unfold u32. apply Z.mod_small. exact H. Qed.

Lemma u32_land x : u32 x = Z.land x (Z.ones 32).
Proof. unfold u32. rewrite Z.land_ones by lia. reflexivity. Qed.

Lemma u32_int x : u32 (int x) = u32 x.
Proof.
  unfold u32, int.
  rewrite Zminus_mod_idemp_l.
  f_equal. lia.
Qed.

Lemma u32_lor x y : u32 (Z.lor x y) = Z.lor (u32 x) (u32 y).
Proof. rewrite !u32_land. apply Z.land_lor_distr_l. Qed.

Lemma testbit_high x n i : 0 <= x < 2 ^ n -> n <= i -> Z.testbit x i = false.
Proof.
  intros Hx Hi.
  destruct (Z.ltb_spec n 0) as [Hn | Hn].
  - rewrite Z.pow_neg_r in Hx by lia. lia.
  - rewrite <- (Z.mod_small x (2 ^ n)) by exact Hx.
    apply Z.mod_pow2_bits_high. lia.
Qed.

Lemma bits_range x n :
  0 <= n -> (forall i, n <= i -> Z.testbit x i = false) -> 0 <= x < 2 ^ n.
Proof.
  intros Hn H.
  assert (Hx : x = x mod 2 ^ n).
  { apply Z.bits_inj'. intros i Hi.
    destruct (Z.ltb_spec i n).
    - rewrite Z.mod_pow2_bits_low by lia. reflexivity.
    - rewrite Z.mod_pow2_bits_high by lia. apply H. lia. }
  rewrite Hx. apply Z.mod_pos_bound. apply Z.pow_pos_nonneg; lia.
Qed.

Lemma lxor_range x y n :
  0 <= n -> 0 <= x < 2 ^ n -> 0 <= y < 2 ^ n -> 0 <= Z.lxor x y < 2 ^ n.
Proof.
  intros Hn Hx Hy. apply bits_range; [exact Hn|].
  intros i Hi. rewrite Z.lxor_spec.
  rewrite (testbit_high x n), (testbit_high y n) by assumption.
  reflexivity.
Qed.

Lemma lor_range x y n :
  0 <= n -> 0 <= x < 2 ^ n -> 0 <= y < 2 ^ n -> 0 <= Z.lor x y < 2 ^ n.
Proof.
  intros Hn Hx Hy. apply bits_range; [exact Hn|].
  intros i Hi. rewrite Z.lor_spec.
  rewrite (testbit_high x n), (testbit_high y n) by assumption.
  reflexivity.
Qed.

Lemma shiftr_range x k n :
  0 <= k -> 0 <= x < 2 ^ n -> 0 <= Z.shiftr x k < 2 ^ n.
Proof.
  intros Hk Hx. rewrite Z.shiftr_div_pow2 by exact Hk.
  assert (0 < 2 ^ k) by (apply Z.pow_pos_nonneg; lia).
  split.
  - apply Z.div_pos; lia.
  - apply Z.le_lt_trans with x; [|lia].
    apply Z.div_le_upper_bound; nia.
Qed.

Lemma rotl_range x r : 0 <= r <= 32 -> 0 <= x < 2 ^ 32 -> 0 <= rotl x r < 2 ^ 32.
Proof.
  intros Hr Hx. unfold rotl.
  apply lor_range; [lia | apply u32_range | apply shiftr_range; lia].
Qed.

Lemma lor_shiftl_add lo hi n :
  0 <= n -> 0 <= lo < 2 ^ n -> Z.lor lo (Z.shiftl hi n) = lo + 2 ^ n * hi.
Proof.
  intros Hn Hlo.
  rewrite Z.shiftl_mul_pow2 by exact Hn.
  rewrite (Z.mul_comm (2 ^ n) hi).
  rewrite <- Z.lxor_lor, <- Z.add_nocarry_lxor; try reflexivity.
  all: rewrite <- Z.shiftl_mul_pow2 by exact Hn.
  all: apply Z.bits_inj'; intros i Hi; rewrite Z.land_spec, Z.bits_0.
  all: destruct (Z.ltb_spec i n);
    [ rewrite Z.shiftl_spec_low by lia; apply andb_false_r
    | rewrite (testbit_high lo n) by lia; reflexivity ].
Qed.

(** ** Running the computations *)

Lemma bind_run {A B} (m : M A) (f : A -> M B) t a t' r :
  m t = Some (a, t') -> f a t' = r -> bind m f t = r.
Proof. intros Hm Hf. unfold bind. rewrite Hm. exact Hf. Qed.

Lemma count_ok_spec k : count_ok k = true <-> 0 <= k < 32.
Proof. unfold count_ok. rewrite andb_true_iff, Z.leb_le, Z.ltb_lt. tauto. Qed.

Lemma rotl32_run x r t :
  1 <= r <= 31 -> rotl32 x r t = Some (rotl x r, t ++ [r]).
Proof.
  intros Hr. unfold rotl32, shl32, shr32, tick, bind.
  assert (H1 : count_ok r = true) by (apply count_ok_spec; lia).
  assert (H2 : count_ok (32 - r) = true) by (apply count_ok_spec; lia).
  rewrite H1, H2. reflexivity.
Qed.

Lemma rot_run x k t :
  1 <= k <= 31 -> rot x k t = Some (rotl x k, t ++ [k]).
Proof. exact (rotl32_run x k t). Qed.

(** A rotate is defined exactly for the counts 1..31. *)
Lemma rotl32_defined x r t : rotl32 x r t <> None <-> 1 <= r <= 31.
Proof.
  split.
  - intros H.
    destruct (Z_le_gt_dec 1 r) as [H1 | H1];
      [destruct (Z_le_gt_dec r 31) as [H2 | H2]; [lia|] |]; exfalso; apply H;
      unfold rotl32, shl32, shr32, tick, bind.
    + assert (E : count_ok r = false).
      { apply not_true_is_false. rewrite count_ok_spec. lia. }
      rewrite E. reflexivity.
    + destruct (count_ok r); [|reflexivity].
      assert (E : count_ok (32 - r) = false).
      { apply not_true_is_false. rewrite count_ok_spec. lia. }
      rewrite E. reflexivity.
  - intros Hr. rewrite rotl32_run by exact Hr. discriminate.
Qed.

(** One step of symbolic execution: run the first computation of a
    [bind], then continue with its result. *)
Ltac run_prim :=
  lazymatch goal with
  | |- bind _ _ _ = _ =>
      eapply bind_run; [ run_prim | cbv beta zeta; run_prim ]
  | |- rotl32 _ _ _ = _ => apply rotl32_run; lia
  | |- rot _ _ _ = _ => apply rot_run; lia
  | |- _ => reflexivity
  end.
Ltac run_step := eapply bind_run; [ run_prim | cbv beta zeta ].
Ltac run := repeat run_step.

(** Array indices that are literals, as numerals of [nat]. *)
Ltac eval_indices :=
  repeat match goal with
         | |- context [Z.to_nat ?n] =>
             let v := eval vm_compute in (Z.to_nat n) in
             change (Z.to_nat n) with v
         end.

(** A buffer of 13 bytes, byte by byte. *)
Ltac split13 bs H :=
  destruct bs as [| b0 [| b1 [| b2 [| b3 [| b4 [| b5 [| b6 [| b7 [| b8
    [| b9 [| b10 [| b11 [| b12 [| ? ?]]]]]]]]]]]]]];
  try discriminate H; clear H.

Lemma final_run s t :
  final s t = Some (final_seven s, t ++ [14; 11; 25; 16; 4; 14; 24]).
Proof.
  destruct s as [[a b] c]. unfold final. run.
  repeat rewrite <- app_assoc.
  unfold final_seven, final_six, final_pair, u32. reflexivity.
Qed.

Lemma mix_run s t :
  exists s', mix s t = Some (s', t ++ [4; 6; 8; 16; 19; 4]).
Proof.
  destruct s as [[a b] c]. eexists. unfold mix. run.
  repeat rewrite <- app_assoc. reflexivity.
Qed.

(** *** Variant A *)

Lemma scramble_code k : u32 (rotl (u32 (k * c1)) 15 * c2) = scramble k.
Proof. reflexivity. Qed.

Lemma block_round_code h k :
  u32 (u32 (rotl (Z.lxor h (scramble k)) 13 * 5) + 0xe6546b64) =
  block_round h k.
Proof. unfold block_round, u32. apply Z.add_mod_idemp_l. lia. Qed.

Lemma scramble_range k : 0 <= scramble k < 2 ^ 32.
Proof. unfold scramble. apply Z.mod_pos_bound. lia. Qed.

Lemma block_round_range h k : 0 <= block_round h k < 2 ^ 32.
Proof. unfold block_round. apply Z.mod_pos_bound. lia. Qed.

(** The block loop folds [block_round] over the words it reads and
    rotates by 15 and by 13 once per block. *)
Lemma murmur3_blocks_run e key ws :
  forall i h t,
    blocks_at e key i ws ->
    murmur3_blocks e key (length ws) i h t =
    Some (fold_left block_round ws h,
          t ++ flat_map (fun _ => [15; 13]) ws).
Proof.
  induction ws as [| w ws IH]; intros i h t Hws.
  - simpl. rewrite app_nil_r. reflexivity.
  - destruct Hws as [Hw Hrest].
    cbn [length murmur3_blocks].
    eapply bind_run; [apply Hw | cbv beta zeta].
    run.
    rewrite scramble_code, block_round_code.
    rewrite (IH (i + 1) _ _ Hrest).
    cbn [fold_left flat_map]. repeat rewrite <- app_assoc. reflexivity.
Qed.

Lemma fmix32_code h :
  Z.lxor
    (u32 (Z.lxor (u32 (Z.lxor h (Z.shiftr h 16) * 0x85ebca6b))
            (Z.shiftr (u32 (Z.lxor h (Z.shiftr h 16) * 0x85ebca6b)) 13)
          * 0xc2b2ae35))
    (Z.shiftr
       (u32 (Z.lxor (u32 (Z.lxor h (Z.shiftr h 16) * 0x85ebca6b))
               (Z.shiftr (u32 (Z.lxor h (Z.shiftr h 16) * 0x85ebca6b)) 13)
             * 0xc2b2ae35)) 16) = fmix32 h.
Proof. reflexivity. Qed.

Lemma murmur_host_little_endian bs seed :
  murmur_host LittleEndian bs seed = reference_murmur3_32 bs seed.
Proof.
  unfold murmur_host, reference_murmur3_32, after_blocks, block_host,
    block_le, value_of.
  reflexivity.
Qed.

(** [murmur3_32] on any 13 bytes. *)
Lemma murmur3_32_run13 e bs seed t :
  length bs = 13%nat ->
  murmur3_32 e bs 13 seed t =
  Some (murmur_host e bs seed, t ++ [15; 13; 15; 13; 15; 13; 15]).
Proof.
  intros Hlen. split13 bs Hlen.
  set (bs := [b0; b1; b2; b3; b4; b5; b6; b7; b8; b9; b10; b11; b12]).
  unfold murmur3_32. change (Z.to_nat (13 / 4)) with 3%nat.
  cbv zeta.
  eapply bind_run.
  { apply (murmur3_blocks_run e _
             [block_host e bs 0; block_host e bs 1; block_host e bs 2]).
    cbn [blocks_at]. repeat split; intros; reflexivity. }
  cbv beta. change (Z.land 13 3) with 1. cbn [Z.eqb Pos.eqb orb].
  run.
  unfold murmur_host.
  cbn [nth flat_map app].
  set (h := fold_left block_round _ seed).
  change (Z.lxor 0 b12) with b12.
  rewrite scramble_code.
  assert (Hh : 0 <= Z.lxor (Z.lxor h (scramble b12)) 13 < 2 ^ 32).
  { apply lxor_range; [lia | | lia].
    apply lxor_range; [lia | | apply scramble_range].
    subst h. cbn [fold_left]. apply block_round_range. }
  rewrite (u32_small _ Hh).
  rewrite fmix32_code.
  repeat rewrite <- app_assoc. reflexivity.
Qed.

Lemma murmur3_pack_run e junk k t :
  length junk = 13%nat ->
  packA e junk k t = Some (host_layout e k, t).
Proof.
  intros Hlen. split13 junk Hlen.
  unfold packA, murmur3_pack.
  destruct e; cbv zeta; run; reflexivity.
Qed.

Lemma serialize_length k : length (serialize k) = 13%nat.
Proof. reflexivity. Qed.

Lemma host_layout_length e k : length (host_layout e k) = 13%nat.
Proof. destruct e; reflexivity. Qed.

Lemma murmurhash3_5tuple_run e junk k seed t :
  length junk = 13%nat ->
  hashA e junk k seed t =
  Some (murmur_host e (host_layout e k) seed,
        t ++ [15; 13; 15; 13; 15; 13; 15]).
Proof.
  intros Hlen. unfold hashA, murmurhash3_5tuple.
  eapply bind_run; [ exact (murmur3_pack_run e junk k t Hlen) |].
  apply murmur3_32_run13. apply host_layout_length.
Qed.

Lemma host_layout_little_endian k : host_layout LittleEndian k = serialize k.
Proof. unfold host_layout, serialize, repr. reflexivity. Qed.

Lemma murmurhash3_5tuple_run_le junk k seed t :
  length junk = 13%nat ->
  hashA LittleEndian junk k seed t =
  Some (reference_murmur3_32 (serialize k) seed,
        t ++ [15; 13; 15; 13; 15; 13; 15]).
Proof.
  intros Hlen. rewrite (murmurhash3_5tuple_run LittleEndian junk k seed t Hlen).
  rewrite host_layout_little_endian, murmur_host_little_endian.
  reflexivity.
Qed.

(** *** Variant B *)

Lemma byte0_code x : u8 (Z.land x 0xFF) = x mod 2 ^ 8.
Proof.
  unfold u8. change 0xFF with (Z.ones 8).
  rewrite Z.land_ones by lia. apply Z.mod_mod. lia.
Qed.

Lemma byte1_code x : u8 (Z.land (Z.shiftr x 8) 0xFF) = (x / 2 ^ 8) mod 2 ^ 8.
Proof. rewrite byte0_code, Z.shiftr_div_pow2 by lia. reflexivity. Qed.

Lemma byte2_code x :
  u8 (Z.land (Z.shiftr x 16) 0xFF) = (x / 2 ^ 8 / 2 ^ 8) mod 2 ^ 8.
Proof.
  rewrite byte0_code, Z.shiftr_div_pow2 by lia.
  rewrite Z.div_div by lia. reflexivity.
Qed.

Lemma byte3_code x :
  u8 (Z.land (Z.shiftr x 24) 0xFF) = (x / 2 ^ 8 / 2 ^ 8 / 2 ^ 8) mod 2 ^ 8.
Proof.
  rewrite byte0_code, Z.shiftr_div_pow2 by lia.
  rewrite !Z.div_div by lia. reflexivity.
Qed.

Lemma jenkins_pack_run junk k t :
  length junk = 13%nat ->
  packB junk k t = Some (serialize k, t).
Proof.
  intros Hlen. split13 junk Hlen.
  unfold packB, jenkins_pack. cbv zeta. run.
  unfold ret. do 2 f_equal.
  eval_indices. cbn [upd serialize le_bytes app].
  unfold shr_int, shr32. cbv beta.
  rewrite !byte3_code, !byte2_code, !byte1_code, !byte0_code.
  reflexivity.
Qed.

(** The [int] expression that assembles a word from four bytes has, once
    converted to [uint32_t], the little-endian value of the bytes; the
    sign bit that [key[i+3] << 24] may set is no exception. *)
Lemma word_code k0 k1 k2 k3 :
  0 <= k0 < 2 ^ 8 -> 0 <= k1 < 2 ^ 8 -> 0 <= k2 < 2 ^ 8 -> 0 <= k3 < 2 ^ 8 ->
  u32 (Z.lor (Z.lor (Z.lor k0 (int (Z.shiftl k1 8))) (int (Z.shiftl k2 16)))
         (int (Z.shiftl k3 24))) = le_value [k0; k1; k2; k3].
Proof.
  intros H0 H1 H2 H3.
  rewrite !u32_lor, !u32_int.
  rewrite (u32_small k0) by lia.
  rewrite (u32_small (Z.shiftl k1 8)) by (rewrite Z.shiftl_mul_pow2; lia).
  rewrite (u32_small (Z.shiftl k2 16)) by (rewrite Z.shiftl_mul_pow2; lia).
  rewrite (u32_small (Z.shiftl k3 24)) by (rewrite Z.shiftl_mul_pow2; lia).
  transitivity
    (Z.lor k0 (Z.shiftl (Z.lor k1 (Z.shiftl (Z.lor k2 (Z.shiftl k3 8)) 8)) 8)).
  { rewrite !Z.shiftl_lor, !Z.shiftl_shiftl by lia.
    change (8 + 8) with 16. change (16 + 8) with 24.
    rewrite !Z.lor_assoc. reflexivity. }
  cbn [le_value].
  rewrite (lor_shiftl_add k2) by lia.
  rewrite (lor_shiftl_add k1) by lia.
  rewrite (lor_shiftl_add k0) by lia.
  lia.
Qed.

Lemma byte_range x : 0 <= x mod 2 ^ 8 < 2 ^ 8.
Proof. apply Z.mod_pos_bound. lia. Qed.

Lemma jenkins_hash_5tuple_run junk k seed t :
  length junk = 13%nat ->
  hashB junk k seed t =
  Some (word_C (final_seven (absorbed (serialize k) seed)),
        t ++ [14; 11; 25; 16; 4; 14; 24]).
Proof.
  intros Hlen. unfold hashB, jenkins_hash_5tuple.
  eapply bind_run; [ exact (jenkins_pack_run junk k t Hlen) |].
  cbv beta zeta. unfold serialize. cbn [le_bytes app].
  do 4 run_step.
  rewrite !word_code by apply byte_range.
  eapply bind_run; [ apply final_run |].
  unfold absorbed, block_le.
  cbn [Nat.mul Nat.add skipn firstn nth].
  rewrite <- (Z.add_mod_idemp_l (0xdeadbeef + 13) seed) by lia.
  rewrite <- (Z.add_mod_idemp_l (_ + le_value _) (protocol k)) by lia.
  fold (u32 (0xdeadbeef + 13)).
  match goal with
  | |- (let (_, _) := final_seven ?s in _) _ = Some (word_C (final_seven ?s'), _) =>
      change s' with s; destruct (final_seven s) as [[a b] c]
  end.
  reflexivity.
Qed.

(** ** The mixing steps of Variant A are one-to-one *)

Lemma mul_odd_inj c cinv a b :
  (c * cinv) mod 2 ^ 32 = 1 ->
  0 <= a < 2 ^ 32 -> 0 <= b < 2 ^ 32 ->
  (a * c) mod 2 ^ 32 = (b * c) mod 2 ^ 32 -> a = b.
Proof.
  intros Hinv Ha Hb H.
  assert (back : forall x, 0 <= x < 2 ^ 32 ->
                 ((x * c) mod 2 ^ 32 * cinv) mod 2 ^ 32 = x).
  { intros x Hx.
    rewrite Z.mul_mod_idemp_l by lia.
    rewrite <- Z.mul_assoc, Z.mul_mod by lia.
    rewrite Hinv, Z.mul_1_r, Z.mod_mod by lia.
    apply Z.mod_small. exact Hx. }
  rewrite <- (back a Ha), <- (back b Hb), H. reflexivity.
Qed.

(** A rotation by [r] moves the low [32 - r] bits up and the high [r]
    bits down. *)
Lemma rotl_split x r :
  1 <= r <= 31 -> 0 <= x < 2 ^ 32 ->
  rotl x r = x / 2 ^ (32 - r) + 2 ^ r * (x mod 2 ^ (32 - r)).
Proof.
  intros Hr Hx. unfold rotl, u32.
  assert (Hpow : 2 ^ 32 = 2 ^ (32 - r) * 2 ^ r).
  { rewrite <- Z.pow_add_r by lia. f_equal. lia. }
  assert (Hp1 : 0 < 2 ^ r) by (apply Z.pow_pos_nonneg; lia).
  assert (Hp2 : 0 < 2 ^ (32 - r)) by (apply Z.pow_pos_nonneg; lia).
  rewrite Z.shiftl_mul_pow2 by lia.
  rewrite Hpow at 1.
  rewrite Z.mul_mod_distr_r by lia.
  rewrite <- Z.shiftl_mul_pow2 by lia.
  rewrite Z.shiftr_div_pow2 by lia.
  rewrite Z.lor_comm.
  apply lor_shiftl_add; [lia |].
  split.
  - apply Z.div_pos; lia.
  - apply Z.div_lt_upper_bound; lia.
Qed.

Lemma rotl_inj x y r :
  1 <= r <= 31 -> 0 <= x < 2 ^ 32 -> 0 <= y < 2 ^ 32 ->
  rotl x r = rotl y r -> x = y.
Proof.
  intros Hr Hx Hy H.
  rewrite !rotl_split in H by assumption.
  assert (Hpow : 2 ^ 32 = 2 ^ (32 - r) * 2 ^ r).
  { rewrite <- Z.pow_add_r by lia. f_equal. lia. }
  assert (Hp1 : 0 < 2 ^ r) by (apply Z.pow_pos_nonneg; lia).
  assert (Hp2 : 0 < 2 ^ (32 - r)) by (apply Z.pow_pos_nonneg; lia).
  assert (Hxh : 0 <= x / 2 ^ (32 - r) < 2 ^ r).
  { split; [apply Z.div_pos; lia | apply Z.div_lt_upper_bound; lia]. }
  assert (Hyh : 0 <= y / 2 ^ (32 - r) < 2 ^ r).
  { split; [apply Z.div_pos; lia | apply Z.div_lt_upper_bound; lia]. }
  destruct (Z.div_mod_unique (2 ^ r)
              (x mod 2 ^ (32 - r)) (y mod 2 ^ (32 - r))
              (x / 2 ^ (32 - r)) (y / 2 ^ (32 - r)))
    as [Hlo Hhi]; [left; exact Hxh | left; exact Hyh | lia |].
  rewrite (Z.div_mod x (2 ^ (32 - r))), (Z.div_mod y (2 ^ (32 - r))) by lia.
  rewrite Hhi, Hlo. reflexivity.
Qed.

Lemma xorshift_range h s :
  0 <= s -> 0 <= h < 2 ^ 32 -> 0 <= Z.lxor h (Z.shiftr h s) < 2 ^ 32.
Proof.
  intros Hs Hh. apply lxor_range; [lia | exact Hh | apply shiftr_range; lia].
Qed.

Lemma xorshift_inj x y s :
  0 < s -> 0 <= x -> 0 <= y ->
  Z.lxor x (Z.shiftr x s) = Z.lxor y (Z.shiftr y s) -> x = y.
Proof.
  intros Hs Hx Hy H.
  apply Z.lxor_eq.
  assert (Hd : Z.lxor x y = Z.shiftr (Z.lxor x y) s).
  { apply Z.lxor_eq. rewrite Z.shiftr_lxor.
    transitivity (Z.lxor (Z.lxor x (Z.shiftr x s)) (Z.lxor y (Z.shiftr y s))).
    - apply Z.bits_inj'. intros i Hi. rewrite !Z.lxor_spec.
      destruct (Z.testbit x i), (Z.testbit y i),
        (Z.testbit (Z.shiftr x s) i), (Z.testbit (Z.shiftr y s) i);
        reflexivity.
    - rewrite H. apply Z.lxor_nilpotent. }
  assert (Hn : 0 <= Z.lxor x y) by (apply Z.lxor_nonneg; lia).
  rewrite Z.shiftr_div_pow2 in Hd by lia.
  assert (Hp : 2 <= 2 ^ s).
  { change 2 with (2 ^ 1) at 1. apply Z.pow_le_mono_r; lia. }
  destruct (Z.eq_dec (Z.lxor x y) 0) as [E | E]; [exact E |].
  exfalso.
  assert (Z.lxor x y / 2 ^ s < Z.lxor x y).
  { apply Z.div_lt; lia. }
  lia.
Qed.

Lemma scramble_inj k k' :
  0 <= k < 2 ^ 32 -> 0 <= k' < 2 ^ 32 -> scramble k = scramble k' -> k = k'.
Proof.
  intros Hk Hk' H. unfold scramble in H.
  apply (mul_odd_inj 0x1b873593 0x56ed309b) in H;
    [ | reflexivity | apply rotl_range; [lia | apply Z.mod_pos_bound; lia] .. ].
  apply rotl_inj in H; [ | lia | apply Z.mod_pos_bound; lia .. ].
  apply (mul_odd_inj 0xcc9e2d51 0xdee13bb1) in H;
    [ exact H | reflexivity | assumption .. ].
Qed.

Lemma fmix32_inj h h' :
  0 <= h < 2 ^ 32 -> 0 <= h' < 2 ^ 32 -> fmix32 h = fmix32 h' -> h = h'.
Proof.
  intros Hh Hh' H. unfold fmix32 in H. cbv zeta in H.
  apply xorshift_inj in H;
    [ | lia | apply Z.mod_pos_bound; lia .. ].
  apply (mul_odd_inj 0xc2b2ae35 0x7ed1b41d) in H;
    [ | reflexivity
      | apply xorshift_range; [lia | apply Z.mod_pos_bound; lia] .. ].
  apply xorshift_inj in H;
    [ | lia | apply Z.mod_pos_bound; lia .. ].
  apply (mul_odd_inj 0x85ebca6b 0xa5cb9243) in H;
    [ | reflexivity | apply xorshift_range; [lia | assumption] .. ].
  apply xorshift_inj in H; [ exact H | lia .. ].
Qed.

Lemma fmix32_range h : 0 <= fmix32 h < 2 ^ 32.
Proof.
  unfold fmix32. cbv zeta.
  apply xorshift_range; [lia | apply Z.mod_pos_bound; lia].
Qed.

Lemma lxor_inj_r a x y : Z.lxor a x = Z.lxor a y -> x = y.
Proof.
  intros H. apply (f_equal (Z.lxor a)) in H.
  rewrite <- !Z.lxor_assoc, Z.lxor_nilpotent, !Z.lxor_0_l in H. exact H.
Qed.

Lemma lxor_inj_l a x y : Z.lxor x a = Z.lxor y a -> x = y.
Proof. rewrite !(Z.lxor_comm _ a). apply lxor_inj_r. Qed.

(** ** Serialization round trip *)

Lemma le_value_le_bytes n x :
  le_value (le_bytes n x) = x mod 2 ^ (8 * Z.of_nat n).
Proof.
  revert x. induction n as [| n IH]; intros x.
  - cbn [le_bytes le_value]. change (2 ^ (8 * Z.of_nat 0)) with 1.
    rewrite Z.mod_1_r. reflexivity.
  - cbn [le_bytes le_value]. rewrite IH.
    replace (8 * Z.of_nat (S n)) with (8 + 8 * Z.of_nat n) by lia.
    rewrite Z.pow_add_r by lia.
    rewrite Z.rem_mul_r; [reflexivity | lia |].
    apply Z.pow_pos_nonneg; lia.
Qed.

Lemma value_of_repr e n x : value_of e (repr e n x) = x mod 2 ^ (8 * Z.of_nat n).
Proof.
  destruct e; unfold value_of, repr.
  - apply le_value_le_bytes.
  - rewrite rev_involutive. apply le_value_le_bytes.
Qed.

Lemma le_bytes_length n x : length (le_bytes n x) = n.
Proof. revert x. induction n; intros; cbn [le_bytes length]; auto. Qed.

Lemma repr_length e n x : length (repr e n x) = n.
Proof.
  destruct e; unfold repr; [| rewrite length_rev]; apply le_bytes_length.
Qed.

Lemma firstn_exact {A} (a b : list A) n :
  length a = n -> firstn n (a ++ b) = a.
Proof.
  intros <-. induction a; cbn [length firstn app]; [destruct b|]; congruence.
Qed.

Lemma skipn_exact {A} (a b : list A) n :
  length a = n -> skipn n (a ++ b) = b.
Proof. intros <-. induction a; cbn [length skipn app]; auto. Qed.

Lemma deserialize_host_layout e k :
  valid_key k -> deserialize_host e (host_layout e k) = k.
Proof.
  intros (Hsa & Hda & Hsp & Hdp & Hp). destruct k as [sa da sp dp p].
  cbn [source_address destination_address source_port destination_port
       protocol] in *.
  unfold deserialize_host, host_layout.
  cbn [source_address destination_address source_port destination_port
       protocol].
  rewrite !(skipn_exact (repr e 4 _)) by apply repr_length.
  rewrite !(skipn_exact (repr e 2 _)) by apply repr_length.
  rewrite !firstn_exact by apply repr_length.
  rewrite !value_of_repr.
  cbn [nth].
  change (2 ^ (8 * Z.of_nat 4)) with (2 ^ 32).
  change (2 ^ (8 * Z.of_nat 2)) with (2 ^ 16).
  rewrite !Z.mod_small by assumption. reflexivity.
Qed.

Lemma deserialize_serialize k : valid_key k -> deserialize (serialize k) = k.
Proof.
  intros Hk. rewrite <- (deserialize_host_layout LittleEndian k Hk) at 2.
  reflexivity.
Qed.

Lemma Some_inj {A} (x y : A) : Some x = Some y -> x = y.
Proof. intros H. congruence. Qed.

Lemma result_run {A} (m : M A) a t : m [] = Some (a, t) -> result m = Some a.
Proof. intros H. unfold result. rewrite H. reflexivity. Qed.

Lemma rotations_run {A} (m : M A) a t :
  m [] = Some (a, t) -> rotations m = Some t.
Proof. intros H. unfold rotations. rewrite H. reflexivity. Qed.

(** ** Variant A on a big-endian host *)

(** On a big-endian host the two addresses are read back as they were
    written, but the third block holds the source port in its high half:
    the digest is the one a little-endian host computes for the key with
    the ports exchanged. *)
Lemma murmur3_big_endian_swaps_ports junk k seed t :
  length junk = 13%nat ->
  hashA BigEndian junk k seed t = hashA LittleEndian junk (swap_ports k) seed t.
Proof.
  intros Hlen. rewrite !murmurhash3_5tuple_run by exact Hlen.
  unfold murmur_host, block_host, host_layout, swap_ports, repr, value_of.
  cbn [source_address destination_address source_port destination_port
       protocol le_bytes rev app Nat.mul Nat.add skipn firstn nth].
  reflexivity.
Qed.

(** Known answers on the sample 5-tuple of the two [main] functions. *)
Example murmurhash3_5tuple_sample :
  result (hashA LittleEndian sample_junk sample_key sample_seed) =
  Some 0x549DED1B.
Proof. vm_compute. reflexivity. Qed.

Example jenkins_hash_5tuple_sample :
  result (hashB sample_junk sample_key sample_seed) = Some 0xB196650B.
Proof. vm_compute. reflexivity. Qed.

(** * The claims *)

(** C1. For every 5-tuple and every seed, the digest of Variant A (on a
    little-endian host, the one the program is written for) is the
    reference MurmurHash3-32 of the serialized key: the accumulator starts
    at the seed, the three little-endian blocks go through multiply by
    0xcc9e2d51, rotate by 15, multiply by 0x1b873593, exclusive-or, rotate
    by 13 and times 5 plus 0xe6546b64; the tail byte is mixed in; the
    length 13 is exclusive-ored in and the avalanche with 0x85ebca6b,
    0xc2b2ae35 and shifts 16, 13, 16 ends the computation. *)
Theorem murmur3_matches_reference junk k seed :
  length junk = 13%nat ->
  result (hashA LittleEndian junk k seed) =
  Some (reference_murmur3_32 (serialize k) seed).
Proof.
  intros Hlen.
  exact (result_run _ _ _ (murmurhash3_5tuple_run_le junk k seed [] Hlen)).
Qed.

Lemma murmur3_matches_reference_witness :
  length sample_junk = 13%nat /\
  result (hashA LittleEndian sample_junk sample_key sample_seed) =
  Some (reference_murmur3_32 (serialize sample_key) sample_seed).
Proof.
  split; [reflexivity |].
  apply (murmur3_matches_reference sample_junk sample_key sample_seed).
  reflexivity.
Defined.

(** C2, as the specification words it, fails: the digest of Variant B is
    not word C after the six paired operations with rotates 14, 11, 25,
    16, 4, 14. *)
Lemma jenkins_final_six_counterexample :
  result (hashB sample_junk sample_key sample_seed) <>
  Some (word_C (final_six (absorbed (serialize sample_key) sample_seed))).
Proof. vm_compute. discriminate. Qed.

(** C2, amended. The finalization of Variant B consists of seven paired
    operations, with the rotate sequence 14, 11, 25, 16, 4, 14, 24: the
    macro [final] computes [final_seven] and rotates by exactly these
    counts, and the digest is word C of the state it leaves. *)
Theorem jenkins_final_has_seven_operations junk k seed :
  length junk = 13%nat ->
  (forall s, result (final s) = Some (final_seven s)) /\
  (forall s, rotations (final s) = Some [14; 11; 25; 16; 4; 14; 24]) /\
  result (hashB junk k seed) =
  Some (word_C (final_seven (absorbed (serialize k) seed))) /\
  rotations (hashB junk k seed) = Some [14; 11; 25; 16; 4; 14; 24].
Proof.
  intros Hlen.
  pose proof (jenkins_hash_5tuple_run junk k seed [] Hlen) as Hrun.
  repeat split.
  - intros s. exact (result_run _ _ _ (final_run s [])).
  - intros s. exact (rotations_run _ _ _ (final_run s [])).
  - exact (result_run _ _ _ Hrun).
  - exact (rotations_run _ _ _ Hrun).
Qed.

Lemma jenkins_final_has_seven_operations_witness :
  length sample_junk = 13%nat /\
  result (hashB sample_junk sample_key sample_seed) =
  Some (word_C (final_seven (absorbed (serialize sample_key) sample_seed))).
Proof.
  split; [reflexivity |].
  apply (jenkins_final_has_seven_operations sample_junk sample_key
           sample_seed).
  reflexivity.
Defined.

(** C3. Variant B starts all three state words at
    [0xdeadbeef + 13 + seed] modulo 2^32, adds word0 (bytes 0-3 of the key,
    little-endian) into A, word1 (bytes 4-7) into B, word2 (bytes 8-11)
    into C and byte 12 into A only, and then runs [final] on that state,
    with no [mix] in between. *)
Theorem jenkins_absorbs_key_then_finalizes junk k seed t :
  length junk = 13%nat ->
  let key := serialize k in
  let init := (0xdeadbeef + 13 + seed) mod 2 ^ 32 in
  let A := (init + block_le key 0 + nth 12 key 0) mod 2 ^ 32 in
  let B := (init + block_le key 1) mod 2 ^ 32 in
  let C := (init + block_le key 2) mod 2 ^ 32 in
  hashB junk k seed t = ('(a, b, c) <- final (A, B, C) ;; ret c) t.
Proof.
  intros Hlen key init A B C.
  rewrite (jenkins_hash_5tuple_run junk k seed t Hlen).
  symmetry. eapply bind_run; [ apply final_run |].
  change (A, B, C) with (absorbed (serialize k) seed).
  destruct (final_seven (absorbed (serialize k) seed)) as [[a b] c].
  reflexivity.
Qed.

Lemma jenkins_absorbs_key_then_finalizes_witness :
  length sample_junk = 13%nat /\
  hashB sample_junk sample_key sample_seed [] =
  ('(a, b, c) <- final (absorbed (serialize sample_key) sample_seed) ;;
   ret c) [].
Proof.
  split; [reflexivity |].
  exact (jenkins_absorbs_key_then_finalizes sample_junk sample_key
           sample_seed [] eq_refl).
Defined.

Lemma after_blocks_with_protocol k p seed :
  after_blocks (serialize (with_protocol k p)) seed =
  after_blocks (serialize k) seed.
Proof.
  unfold after_blocks, block_le, serialize, with_protocol.
  cbn [source_address destination_address source_port destination_port
       protocol le_bytes app Nat.mul Nat.add skipn firstn].
  reflexivity.
Qed.

Lemma after_blocks_range bs seed : 0 <= after_blocks bs seed < 2 ^ 32.
Proof. unfold after_blocks. cbn [fold_left]. apply block_round_range. Qed.

Lemma hashA_with_protocol junk k p seed :
  length junk = 13%nat ->
  result (hashA LittleEndian junk (with_protocol k p) seed) =
  Some (fmix32 (Z.lxor (Z.lxor (after_blocks (serialize k) seed)
                          (scramble p)) 13)).
Proof.
  intros Hlen.
  rewrite (result_run _ _ _
             (murmurhash3_5tuple_run_le junk (with_protocol k p) seed []
                Hlen)).
  unfold reference_murmur3_32. cbv zeta.
  rewrite after_blocks_with_protocol.
  unfold serialize, with_protocol.
  cbn [source_address destination_address source_port destination_port
       protocol le_bytes app nth].
  reflexivity.
Qed.

(** C4. In Variant A the one trailing byte, the protocol, gets the
    multiply by 0xcc9e2d51, rotate by 15, multiply by 0x1b873593 of a full
    block ([scramble]) and is exclusive-ored into the accumulator the
    three blocks left, before the finalization; the step is never skipped:
    two keys that differ in the protocol only have different digests. *)
Theorem murmur3_tail_byte_is_mixed junk k seed p p' :
  length junk = 13%nat ->
  0 <= p < 2 ^ 8 -> 0 <= p' < 2 ^ 8 -> p <> p' ->
  result (hashA LittleEndian junk (with_protocol k p) seed) =
  Some (fmix32 (Z.lxor (Z.lxor (after_blocks (serialize k) seed)
                          (scramble p)) 13)) /\
  result (hashA LittleEndian junk (with_protocol k p) seed) <>
  result (hashA LittleEndian junk (with_protocol k p') seed).
Proof.
  intros Hlen Hp Hp' Hne.
  split; [exact (hashA_with_protocol junk k p seed Hlen) |].
  rewrite !hashA_with_protocol by exact Hlen.
  intros H. apply Hne.
  apply Some_inj in H.
  pose proof (after_blocks_range (serialize k) seed) as Hh.
  pose proof (scramble_range p) as Hs.
  pose proof (scramble_range p') as Hs'.
  apply fmix32_inj in H;
    [ | apply lxor_range; [lia | apply lxor_range; lia | lia] .. ].
  apply lxor_inj_l, lxor_inj_r in H.
  apply scramble_inj in H; [exact H | lia | lia].
Qed.

Lemma murmur3_tail_byte_is_mixed_witness :
  (length sample_junk = 13%nat /\ 0 <= 6 < 2 ^ 8 /\ 0 <= 17 < 2 ^ 8 /\
   6 <> 17) /\
  result (hashA LittleEndian sample_junk (with_protocol sample_key 6)
            sample_seed) <>
  result (hashA LittleEndian sample_junk (with_protocol sample_key 17)
            sample_seed).
Proof.
  split; [repeat split; try reflexivity; lia |].
  apply (murmur3_tail_byte_is_mixed sample_junk sample_key sample_seed 6 17);
    [reflexivity | lia | lia | lia].
Defined.

(** C5. For every key, both programs leave in their 13-byte array
    (Variant A on a little-endian host) the fields in the fixed order,
    each least significant byte first, without padding: bytes 0-3 the
    source address, 4-7 the destination address, 8-9 the source port,
    10-11 the destination port, 12 the protocol. *)
Theorem serialization_layout junk k :
  length junk = 13%nat ->
  let sa := source_address k in
  let da := destination_address k in
  let sp := source_port k in
  let dp := destination_port k in
  let wire :=
    [byte 0 sa; byte 1 sa; byte 2 sa; byte 3 sa;
     byte 0 da; byte 1 da; byte 2 da; byte 3 da;
     byte 0 sp; byte 1 sp; byte 0 dp; byte 1 dp; protocol k] in
  result (packB junk k) = Some wire /\
  result (packA LittleEndian junk k) = Some wire /\
  serialize k = wire /\
  length wire = 13%nat.
Proof.
  intros Hlen sa da sp dp wire.
  assert (Hwire : serialize k = wire).
  { unfold wire, serialize, byte. fold sa da sp dp. cbn [le_bytes app].
    change (8 * 0) with 0. change (2 ^ 0) with 1. rewrite !Z.div_1_r.
    rewrite !Z.div_div by lia.
    reflexivity. }
  repeat split.
  - rewrite <- Hwire. exact (result_run _ _ _ (jenkins_pack_run junk k [] Hlen)).
  - rewrite <- Hwire, <- host_layout_little_endian.
    exact (result_run _ _ _ (murmur3_pack_run LittleEndian junk k [] Hlen)).
  - exact Hwire.
Qed.

Lemma serialization_layout_witness :
  length sample_junk = 13%nat /\
  result (packB sample_junk sample_key) =
  Some [1; 1; 168; 192; 8; 8; 8; 8; 57; 48; 80; 0; 6] /\
  result (packA LittleEndian sample_junk sample_key) =
  Some [1; 1; 168; 192; 8; 8; 8; 8; 57; 48; 80; 0; 6].
Proof.
  split; [reflexivity |].
  destruct (serialization_layout sample_junk sample_key eq_refl)
    as (HB & HA & _).
  split; [rewrite HB | rewrite HA]; vm_compute; reflexivity.
Defined.

Lemma murmur_host_range e bs seed : 0 <= murmur_host e bs seed < 2 ^ 32.
Proof. unfold murmur_host. cbv zeta. apply fmix32_range. Qed.

Lemma final_seven_range s : 0 <= word_C (final_seven s) < 2 ^ 32.
Proof.
  unfold final_seven. destruct (final_six s) as [[a b] c].
  unfold word_C, final_pair. cbn [snd]. apply Z.mod_pos_bound. lia.
Qed.

(** Under the wrapping reading of [<<] on [int], both variants are total:
    for every key and seed (the all-zero ones included), on a host of
    either byte order, no shift count leaves [0, 32), no access leaves
    the 13-byte array, and the digest is a 32-bit value. *)
Theorem hashes_total e junk k seed :
  length junk = 13%nat ->
  (exists d, result (hashA e junk k seed) = Some d /\ 0 <= d < 2 ^ 32) /\
  (exists d, result (hashB junk k seed) = Some d /\ 0 <= d < 2 ^ 32).
Proof.
  intros Hlen. split.
  - exists (murmur_host e (host_layout e k) seed). split.
    + exact (result_run _ _ _ (murmurhash3_5tuple_run e junk k seed [] Hlen)).
    + apply murmur_host_range.
  - exists (word_C (final_seven (absorbed (serialize k) seed))). split.
    + exact (result_run _ _ _ (jenkins_hash_5tuple_run junk k seed [] Hlen)).
    + apply final_seven_range.
Qed.

Lemma hashes_total_witness :
  length sample_junk = 13%nat /\
  (exists d, result (hashA LittleEndian sample_junk zero_key 0) = Some d /\
             0 <= d < 2 ^ 32) /\
  (exists d, result (hashB sample_junk zero_key 0) = Some d /\
             0 <= d < 2 ^ 32).
Proof.
  split; [reflexivity |].
  exact (hashes_total LittleEndian sample_junk zero_key 0 eq_refl).
Defined.

(** [jenkins_hash_5tuple_with] at the wrapping shift is
    [jenkins_hash_5tuple]: the same statements. *)
Lemma jenkins_hash_5tuple_with_wrapping junk src_ip dst_ip src_port dst_port
    protocol seed t :
  jenkins_hash_5tuple_with shl_int junk src_ip dst_ip src_port dst_port
    protocol seed t =
  jenkins_hash_5tuple junk src_ip dst_ip src_port dst_port protocol seed t.
Proof.
  unfold jenkins_hash_5tuple_with, jenkins_hash_5tuple, jenkins_word_with,
    jenkins_word.
  reflexivity.
Qed.

(** C6, evaluated. On the sample 5-tuple of [main], Variant B shifts an
    [int] out of its range: byte 3 of the key is 192 and [key[3] << 24] is
    192 * 2^24 = 3221225472, above [INT_MAX]. Under the ISO C reading the
    shift, and with it the call, is undefined; under the wrapping reading
    the call returns 0xB196650B. The all-zero key is defined under both. *)
Theorem jenkins_shifts_int_out_of_range :
  result (packB sample_junk sample_key) =
    Some [1; 1; 168; 192; 8; 8; 8; 8; 57; 48; 80; 0; 6] /\
  2 ^ 31 <= 192 * 2 ^ 24 /\
  shl_int_iso 192 24 [] = None /\
  result (jenkins_word_with shl_int_iso
            [1; 1; 168; 192; 8; 8; 8; 8; 57; 48; 80; 0; 6] 0) = None /\
  result (hashB_iso sample_junk sample_key sample_seed) = None /\
  result (hashB sample_junk sample_key sample_seed) = Some 0xB196650B /\
  result (hashB_iso sample_junk zero_key 0) = Some 1595768068 /\
  result (hashB sample_junk zero_key 0) = Some 1595768068.
Proof. vm_compute. repeat split; try reflexivity; discriminate. Qed.

(** C7. Each variant is deterministic: the run of a call (digest and
    rotate counts) is a function of the key and the seed alone. It does
    not depend on what the stack holds when the call starts, in particular
    not on the array an earlier call, with whatever key, left there. *)
Theorem hashes_deterministic e junk junk' k seed t :
  length junk = 13%nat -> length junk' = 13%nat ->
  hashA e junk k seed t = hashA e junk' k seed t /\
  hashB junk k seed t = hashB junk' k seed t /\
  (forall k0 left, result (packA e junk k0) = Some left ->
     hashA e left k seed t = hashA e junk k seed t) /\
  (forall k0 left, result (packB junk k0) = Some left ->
     hashB left k seed t = hashB junk k seed t).
Proof.
  intros Hlen Hlen'. repeat split.
  - rewrite !murmurhash3_5tuple_run by assumption. reflexivity.
  - rewrite !jenkins_hash_5tuple_run by assumption. reflexivity.
  - intros k0 left Hleft.
    rewrite (result_run _ _ _ (murmur3_pack_run e junk k0 [] Hlen)) in Hleft.
    apply Some_inj in Hleft. subst left.
    rewrite !murmurhash3_5tuple_run;
      [reflexivity | assumption | apply host_layout_length].
  - intros k0 left Hleft.
    rewrite (result_run _ _ _ (jenkins_pack_run junk k0 [] Hlen)) in Hleft.
    apply Some_inj in Hleft. subst left.
    rewrite !jenkins_hash_5tuple_run;
      [reflexivity | assumption | apply serialize_length].
Qed.

Lemma hashes_deterministic_witness :
  (length sample_junk = 13%nat /\ length (serialize zero_key) = 13%nat) /\
  hashA LittleEndian sample_junk sample_key sample_seed [] =
  hashA LittleEndian (serialize zero_key) sample_key sample_seed [] /\
  hashB sample_junk sample_key sample_seed [] =
  hashB (serialize zero_key) sample_key sample_seed [].
Proof.
  split; [split; reflexivity |].
  destruct (hashes_deterministic LittleEndian sample_junk
              (serialize zero_key) sample_key sample_seed [] eq_refl eq_refl)
    as (HA & HB & _).
  split; [exact HA | exact HB].
Defined.

(** C8, evaluated. On the sample 5-tuple of the two programs, Variant A
    run on a big-endian host packs the fields most significant byte first
    and returns another digest than on a little-endian host, where it
    returns the digest of the explicit little-endian layout. *)
Theorem murmur3_depends_on_host_byte_order :
  result (packA BigEndian sample_junk sample_key) =
  Some [192; 168; 1; 1; 8; 8; 8; 8; 48; 57; 0; 80; 6] /\
  result (hashA BigEndian sample_junk sample_key sample_seed) =
  Some 290174495 /\
  result (hashA LittleEndian sample_junk sample_key sample_seed) =
  Some 1419635995 /\
  reference_murmur3_32 (serialize sample_key) sample_seed = 1419635995.
Proof. vm_compute. repeat split; reflexivity. Qed.

(** The three words and the tail byte Variant B absorbs. *)
Lemma jenkins_words_run k t :
  valid_key k ->
  jenkins_word (serialize k) 0 t = Some (source_address k, t) /\
  jenkins_word (serialize k) 4 t = Some (destination_address k, t) /\
  jenkins_word (serialize k) 8 t =
    Some (source_port k + 2 ^ 16 * destination_port k, t) /\
  load8 (serialize k) 12 t = Some (protocol k, t).
Proof.
  intros (Hsa & Hda & Hsp & Hdp & Hp).
  unfold serialize. cbn [le_bytes app].
  assert (word : forall i k0 k1 k2 k3 w,
            jenkins_word (serialize k) i t =
              Some (u32 (Z.lor (Z.lor (Z.lor (k0 mod 2 ^ 8)
                                         (int (Z.shiftl (k1 mod 2 ^ 8) 8)))
                                  (int (Z.shiftl (k2 mod 2 ^ 8) 16)))
                           (int (Z.shiftl (k3 mod 2 ^ 8) 24))), t) ->
            le_value [k0 mod 2 ^ 8; k1 mod 2 ^ 8; k2 mod 2 ^ 8; k3 mod 2 ^ 8]
              = w ->
            jenkins_word (serialize k) i t = Some (w, t)).
  { intros i k0 k1 k2 k3 w Hrun Hw. rewrite Hrun.
    rewrite word_code by apply byte_range. rewrite Hw. reflexivity. }
  unfold serialize in word. cbn [le_bytes app] in word.
  change (2 ^ 32) with 4294967296 in *. change (2 ^ 16) with 65536 in *.
  repeat split.
  - eapply word; [unfold jenkins_word; run_prim |].
    cbn [le_value]. change (2 ^ 8) with 256. Z.div_mod_to_equations. lia.
  - eapply word; [unfold jenkins_word; run_prim |].
    cbn [le_value]. change (2 ^ 8) with 256. Z.div_mod_to_equations. lia.
  - eapply word; [unfold jenkins_word; run_prim |].
    cbn [le_value]. change (2 ^ 8) with 256. Z.div_mod_to_equations. lia.
Qed.

(** C9. Serialization is one-to-one on valid keys: the 13 bytes either
    program packs (Variant A on a host of either byte order) determine the
    5-tuple, every field is read back from them exactly, and in Variant B
    the three absorbed words and the tail byte determine the 5-tuple. *)
Theorem serialization_injective e junk1 junk2 k1 k2 :
  valid_key k1 -> valid_key k2 ->
  length junk1 = 13%nat -> length junk2 = 13%nat ->
  (result (packB junk1 k1) = result (packB junk2 k2) -> k1 = k2) /\
  (result (packA e junk1 k1) = result (packA e junk2 k2) -> k1 = k2) /\
  (exists bs, result (packB junk1 k1) = Some bs /\ deserialize bs = k1) /\
  (exists bs, result (packA e junk1 k1) = Some bs /\
              deserialize_host e bs = k1) /\
  (result (jenkins_word (serialize k1) 0) =
     result (jenkins_word (serialize k2) 0) ->
   result (jenkins_word (serialize k1) 4) =
     result (jenkins_word (serialize k2) 4) ->
   result (jenkins_word (serialize k1) 8) =
     result (jenkins_word (serialize k2) 8) ->
   result (load8 (serialize k1) 12) = result (load8 (serialize k2) 12) ->
   k1 = k2).
Proof.
  intros Hk1 Hk2 Hlen1 Hlen2.
  pose proof (result_run _ _ _ (jenkins_pack_run junk1 k1 [] Hlen1)) as HB1.
  pose proof (result_run _ _ _ (jenkins_pack_run junk2 k2 [] Hlen2)) as HB2.
  pose proof (result_run _ _ _ (murmur3_pack_run e junk1 k1 [] Hlen1)) as HA1.
  pose proof (result_run _ _ _ (murmur3_pack_run e junk2 k2 [] Hlen2)) as HA2.
  split; [| split; [| split; [| split]]].
  - rewrite HB1, HB2. intros H. apply Some_inj in H.
    rewrite <- (deserialize_serialize k1 Hk1), <- (deserialize_serialize k2 Hk2).
    rewrite H. reflexivity.
  - rewrite HA1, HA2. intros H. apply Some_inj in H.
    rewrite <- (deserialize_host_layout e k1 Hk1).
    rewrite <- (deserialize_host_layout e k2 Hk2).
    rewrite H. reflexivity.
  - exists (serialize k1). split; [exact HB1 |].
    apply deserialize_serialize. exact Hk1.
  - exists (host_layout e k1). split; [exact HA1 |].
    apply deserialize_host_layout. exact Hk1.
  - destruct (jenkins_words_run k1 [] Hk1) as (W0 & W1 & W2 & W3).
    destruct (jenkins_words_run k2 [] Hk2) as (V0 & V1 & V2 & V3).
    rewrite (result_run _ _ _ W0), (result_run _ _ _ V0).
    rewrite (result_run _ _ _ W1), (result_run _ _ _ V1).
    rewrite (result_run _ _ _ W2), (result_run _ _ _ V2).
    rewrite (result_run _ _ _ W3), (result_run _ _ _ V3).
    intros E0 E1 E2 E3.
    apply Some_inj in E0, E1, E2, E3.
    destruct Hk1 as (_ & _ & Hsp1 & Hdp1 & _).
    destruct Hk2 as (_ & _ & Hsp2 & Hdp2 & _).
    destruct k1 as [sa1 da1 sp1 dp1 p1], k2 as [sa2 da2 sp2 dp2 p2].
    cbn [source_address destination_address source_port destination_port
         protocol] in *.
    assert (sp1 = sp2 /\ dp1 = dp2) as [-> ->] by lia.
    subst. reflexivity.
Qed.

Lemma serialization_injective_witness :
  (valid_key sample_key /\ valid_key zero_key /\
   length sample_junk = 13%nat /\ length (serialize zero_key) = 13%nat) /\
  (result (packB sample_junk sample_key) =
   result (packB (serialize zero_key) zero_key) -> sample_key = zero_key) /\
  exists bs, result (packB sample_junk sample_key) = Some bs /\
             deserialize bs = sample_key.
Proof.
  split.
  - repeat split; unfold sample_key, zero_key; cbn; lia.
  - destruct (serialization_injective LittleEndian sample_junk
                (serialize zero_key) sample_key zero_key)
      as (H1 & _ & H2 & _).
    + unfold valid_key, sample_key; cbn; lia.
    + unfold valid_key, zero_key; cbn; lia.
    + reflexivity.
    + reflexivity.
    + split; [exact H1 | exact H2].
Defined.

(** C10. Every rotate either variant requests has a count between 1 and
    31: Variant A rotates by 15 and 13, the macro [mix] by 4, 6, 8, 16,
    19, 4 and the macro [final], hence Variant B, by 14, 11, 25, 16, 4,
    14, 24. A rotate is defined exactly for these counts: both shifts of
    [(x << r) | (x >> (32 - r))] then have a count strictly between 0 and
    32, and the result is a 32-bit value; a count of 0 or 32, which would
    shift by 32, does not occur. *)
Theorem rotate_counts_in_range e junk k seed s :
  length junk = 13%nat ->
  rotations (hashA e junk k seed) = Some [15; 13; 15; 13; 15; 13; 15] /\
  rotations (hashB junk k seed) = Some [14; 11; 25; 16; 4; 14; 24] /\
  rotations (mix s) = Some [4; 6; 8; 16; 19; 4] /\
  rotations (final s) = Some [14; 11; 25; 16; 4; 14; 24] /\
  Forall (fun r => 1 <= r <= 31 /\ 0 < 32 - r < 32)
    ([15; 13] ++ [4; 6; 8; 16; 19; 4] ++ [14; 11; 25; 16; 4; 14; 24]) /\
  (forall x r t, rotl32 x r t <> None <-> 1 <= r <= 31) /\
  (forall x r t, rot x r t <> None <-> 1 <= r <= 31) /\
  (forall x r, 1 <= r <= 31 -> 0 <= x < 2 ^ 32 ->
     exists y, result (rotl32 x r) = Some y /\ result (rot x r) = Some y /\
               0 <= y < 2 ^ 32).
Proof.
  intros Hlen.
  split; [| split; [| split; [| split; [| split; [| split; [| split]]]]]].
  - exact (rotations_run _ _ _ (murmurhash3_5tuple_run e junk k seed [] Hlen)).
  - exact (rotations_run _ _ _ (jenkins_hash_5tuple_run junk k seed [] Hlen)).
  - destruct (mix_run s []) as [s' Hs']. exact (rotations_run _ _ _ Hs').
  - exact (rotations_run _ _ _ (final_run s [])).
  - cbn [app]. repeat constructor; lia.
  - exact rotl32_defined.
  - exact rotl32_defined.
  - intros x r Hr Hx. exists (rotl x r). split; [| split].
    + exact (result_run _ _ _ (rotl32_run x r [] Hr)).
    + exact (result_run _ _ _ (rot_run x r [] Hr)).
    + apply rotl_range; lia.
Qed.

Lemma rotate_counts_in_range_witness :
  length sample_junk = 13%nat /\
  rotations (hashA LittleEndian sample_junk sample_key sample_seed) =
  Some [15; 13; 15; 13; 15; 13; 15] /\
  rotations (hashB sample_junk sample_key sample_seed) =
  Some [14; 11; 25; 16; 4; 14; 24].
Proof.
  split; [reflexivity |].
  destruct (rotate_counts_in_range LittleEndian sample_junk sample_key
              sample_seed (0, 0, 0) eq_refl) as (HA & HB & _).
  split; [exact HA | exact HB].
Defined.

(** * Further properties of the code *)

(** ** The macros [mix] and [final] *)

Lemma mix_run_value s t :
  mix s t = Some (mix_value s, t ++ [4; 6; 8; 16; 19; 4]).
Proof.
  destruct s as [[a b] c]. unfold mix. run.
  repeat rewrite <- app_assoc.
  unfold mix_value, mix_line, u32. reflexivity.
Qed.

Lemma mix_line_range x z y r :
  0 <= r <= 32 -> 0 <= z < 2 ^ 32 ->
  0 <= fst (mix_line x z y r) < 2 ^ 32 /\
  0 <= snd (mix_line x z y r) < 2 ^ 32.
Proof.
  intros Hr Hz. unfold mix_line. cbn [fst snd]. split.
  - apply lxor_range; [lia | apply Z.mod_pos_bound; lia | apply rotl_range; lia].
  - apply Z.mod_pos_bound. lia.
Qed.

Lemma unmix_mix_line x z y r :
  0 <= x < 2 ^ 32 -> 0 <= z < 2 ^ 32 ->
  unmix_line (fst (mix_line x z y r)) (snd (mix_line x z y r)) y r = (x, z).
Proof.
  intros Hx Hz. unfold mix_line, unmix_line. cbn [fst snd]. cbv zeta.
  assert (Ez : ((z + y) mod 2 ^ 32 - y) mod 2 ^ 32 = z).
  { rewrite Zminus_mod_idemp_l. replace (z + y - y) with z by lia.
    apply Z.mod_small. exact Hz. }
  rewrite Ez. f_equal.
  rewrite Z.lxor_assoc, Z.lxor_nilpotent, Z.lxor_0_r.
  rewrite Zplus_mod_idemp_l. replace (x - z + z) with x by lia.
  apply Z.mod_small. exact Hx.
Qed.

Lemma mix_value_valid s : valid_state s -> valid_state (mix_value s).
Proof.
  destruct s as [[a b] c]. intros (Ha & Hb & Hc).
  unfold mix_value.
  pose proof (mix_line_range a c b 4 ltac:(lia) Hc) as [H1a H1c].
  destruct (mix_line a c b 4) as [a1 c1]. cbn [fst snd] in H1a, H1c.
  pose proof (mix_line_range b a1 c1 6 ltac:(lia) H1a) as [H2b H2a].
  destruct (mix_line b a1 c1 6) as [b2 a2]. cbn [fst snd] in H2b, H2a.
  pose proof (mix_line_range c1 b2 a2 8 ltac:(lia) H2b) as [H3c H3b].
  destruct (mix_line c1 b2 a2 8) as [c3 b3]. cbn [fst snd] in H3c, H3b.
  pose proof (mix_line_range a2 c3 b3 16 ltac:(lia) H3c) as [H4a H4c].
  destruct (mix_line a2 c3 b3 16) as [a4 c4]. cbn [fst snd] in H4a, H4c.
  pose proof (mix_line_range b3 a4 c4 19 ltac:(lia) H4a) as [H5b H5a].
  destruct (mix_line b3 a4 c4 19) as [b5 a5]. cbn [fst snd] in H5b, H5a.
  pose proof (mix_line_range c4 b5 a5 4 ltac:(lia) H5b) as [H6c H6b].
  destruct (mix_line c4 b5 a5 4) as [c6 b6]. cbn [fst snd] in H6c, H6b.
  unfold valid_state. auto.
Qed.

Lemma unmix_mix_value s : valid_state s -> unmix (mix_value s) = s.
Proof.
  destruct s as [[a b] c]. intros (Ha & Hb & Hc).
  unfold mix_value.
  pose proof (mix_line_range a c b 4 ltac:(lia) Hc) as [H1a H1c].
  pose proof (unmix_mix_line a c b 4 Ha Hc) as U1.
  destruct (mix_line a c b 4) as [a1 c1]. cbn [fst snd] in H1a, H1c, U1.
  pose proof (mix_line_range b a1 c1 6 ltac:(lia) H1a) as [H2b H2a].
  pose proof (unmix_mix_line b a1 c1 6 Hb H1a) as U2.
  destruct (mix_line b a1 c1 6) as [b2 a2]. cbn [fst snd] in H2b, H2a, U2.
  pose proof (mix_line_range c1 b2 a2 8 ltac:(lia) H2b) as [H3c H3b].
  pose proof (unmix_mix_line c1 b2 a2 8 H1c H2b) as U3.
  destruct (mix_line c1 b2 a2 8) as [c3 b3]. cbn [fst snd] in H3c, H3b, U3.
  pose proof (mix_line_range a2 c3 b3 16 ltac:(lia) H3c) as [H4a H4c].
  pose proof (unmix_mix_line a2 c3 b3 16 H2a H3c) as U4.
  destruct (mix_line a2 c3 b3 16) as [a4 c4]. cbn [fst snd] in H4a, H4c, U4.
  pose proof (mix_line_range b3 a4 c4 19 ltac:(lia) H4a) as [H5b H5a].
  pose proof (unmix_mix_line b3 a4 c4 19 H3b H4a) as U5.
  destruct (mix_line b3 a4 c4 19) as [b5 a5]. cbn [fst snd] in H5b, H5a, U5.
  pose proof (unmix_mix_line c4 b5 a5 4 H4c H5b) as U6.
  destruct (mix_line c4 b5 a5 4) as [c6 b6]. cbn [fst snd] in U6.
  unfold unmix.
  rewrite U6, U5, U4, U3, U2, U1. reflexivity.
Qed.

Lemma final_pair_range x y r : 0 <= final_pair x y r < 2 ^ 32.
Proof. unfold final_pair. apply Z.mod_pos_bound. lia. Qed.

Lemma unfinal_final_pair x y r :
  0 <= x < 2 ^ 32 -> 0 <= y < 2 ^ 32 -> 0 <= r <= 32 ->
  unfinal_pair (final_pair x y r) y r = x.
Proof.
  intros Hx Hy Hr. unfold unfinal_pair, final_pair.
  rewrite Zplus_mod_idemp_l.
  replace (Z.lxor x y - rotl y r + rotl y r) with (Z.lxor x y) by lia.
  rewrite Z.mod_small by (apply lxor_range; lia).
  rewrite Z.lxor_assoc, Z.lxor_nilpotent, Z.lxor_0_r. reflexivity.
Qed.

Lemma final_seven_valid s : valid_state s -> valid_state (final_seven s).
Proof.
  destruct s as [[a b] c]. intros _.
  unfold final_seven, final_six, valid_state.
  repeat split; apply final_pair_range.
Qed.

Lemma unfinal_final_seven s : valid_state s -> unfinal (final_seven s) = s.
Proof.
  destruct s as [[a b] c]. intros (Ha & Hb & Hc).
  unfold final_seven, final_six, unfinal.
  set (c1 := final_pair c b 14).
  set (a1 := final_pair a c1 11).
  set (b1 := final_pair b a1 25).
  set (c2 := final_pair c1 b1 16).
  set (a2 := final_pair a1 c2 4).
  set (b2 := final_pair b1 a2 14).
  assert (Rc1 : 0 <= c1 < 2 ^ 32) by apply final_pair_range.
  assert (Ra1 : 0 <= a1 < 2 ^ 32) by apply final_pair_range.
  assert (Rb1 : 0 <= b1 < 2 ^ 32) by apply final_pair_range.
  assert (Rc2 : 0 <= c2 < 2 ^ 32) by apply final_pair_range.
  assert (Ra2 : 0 <= a2 < 2 ^ 32) by apply final_pair_range.
  assert (Rb2 : 0 <= b2 < 2 ^ 32) by apply final_pair_range.
  cbv zeta.
  assert (E0 : unfinal_pair (final_pair c2 b2 24) b2 24 = c2)
    by (apply unfinal_final_pair; lia).
  assert (E1 : unfinal_pair b2 a2 14 = b1) by (apply unfinal_final_pair; lia).
  assert (E2 : unfinal_pair a2 c2 4 = a1) by (apply unfinal_final_pair; lia).
  assert (E3 : unfinal_pair c2 b1 16 = c1) by (apply unfinal_final_pair; lia).
  assert (E4 : unfinal_pair b1 a1 25 = b) by (apply unfinal_final_pair; lia).
  assert (E5 : unfinal_pair a1 c1 11 = a) by (apply unfinal_final_pair; lia).
  assert (E6 : unfinal_pair c1 b 14 = c) by (apply unfinal_final_pair; lia).
  rewrite !E0, !E1, !E2, !E3, !E4, !E5, !E6.
  reflexivity.
Qed.

(** X1. [mix] is defined on every state of three 32-bit words, leaves
    three 32-bit words and is reversible, as its comment says: [unmix]
    gives the state back, so two different states are never mixed into
    the same one. *)
Theorem mix_is_reversible s1 s2 :
  valid_state s1 -> valid_state s2 ->
  (exists s', result (mix s1) = Some s' /\ valid_state s' /\ unmix s' = s1) /\
  (result (mix s1) = result (mix s2) -> s1 = s2).
Proof.
  intros H1 H2.
  pose proof (result_run _ _ _ (mix_run_value s1 [])) as R1.
  pose proof (result_run _ _ _ (mix_run_value s2 [])) as R2.
  split.
  - exists (mix_value s1).
    split; [exact R1 | split; [apply mix_value_valid | apply unmix_mix_value]];
      exact H1.
  - rewrite R1, R2. intros E. apply Some_inj in E.
    rewrite <- (unmix_mix_value s1 H1), <- (unmix_mix_value s2 H2), E.
    reflexivity.
Qed.

Lemma mix_is_reversible_witness :
  (valid_state (1, 2, 3) /\ valid_state (3, 2, 1)) /\
  (result (mix (1, 2, 3)) = result (mix (3, 2, 1)) -> (1, 2, 3) = (3, 2, 1)).
Proof.
  split; [unfold valid_state; lia |].
  apply (mix_is_reversible (1, 2, 3) (3, 2, 1)); unfold valid_state; lia.
Defined.

(** X2. [final] is defined on every state of three 32-bit words, leaves
    three 32-bit words and loses nothing of the state: [unfinal] gives the
    state back, so two different states are never finalized into the same
    triple (the digest keeps word C of it only). *)
Theorem final_is_reversible s1 s2 :
  valid_state s1 -> valid_state s2 ->
  (exists s', result (final s1) = Some s' /\ valid_state s' /\
              unfinal s' = s1) /\
  (result (final s1) = result (final s2) -> s1 = s2).
Proof.
  intros H1 H2.
  pose proof (result_run _ _ _ (final_run s1 [])) as R1.
  pose proof (result_run _ _ _ (final_run s2 [])) as R2.
  split.
  - exists (final_seven s1).
    split; [exact R1 | split; [apply final_seven_valid
                              | apply unfinal_final_seven]]; exact H1.
  - rewrite R1, R2. intros E. apply Some_inj in E.
    rewrite <- (unfinal_final_seven s1 H1), <- (unfinal_final_seven s2 H2), E.
    reflexivity.
Qed.

Lemma final_is_reversible_witness :
  (valid_state (1, 2, 3) /\ valid_state (3, 2, 1)) /\
  (result (final (1, 2, 3)) = result (final (3, 2, 1)) ->
   (1, 2, 3) = (3, 2, 1)).
Proof.
  split; [unfold valid_state; lia |].
  apply (final_is_reversible (1, 2, 3) (3, 2, 1)); unfold valid_state; lia.
Defined.

(** ** Rotations *)

Lemma rotl_rotl x r :
  1 <= r <= 31 -> 0 <= x < 2 ^ 32 -> rotl (rotl x r) (32 - r) = x.
Proof.
  intros Hr Hx.
  assert (Hpow : 2 ^ 32 = 2 ^ (32 - r) * 2 ^ r).
  { rewrite <- Z.pow_add_r by lia. f_equal. lia. }
  assert (Hp1 : 0 < 2 ^ r) by (apply Z.pow_pos_nonneg; lia).
  assert (Hp2 : 0 < 2 ^ (32 - r)) by (apply Z.pow_pos_nonneg; lia).
  assert (Hhi : 0 <= x / 2 ^ (32 - r) < 2 ^ r).
  { split; [apply Z.div_pos; lia | apply Z.div_lt_upper_bound; lia]. }
  pose proof (Z.mod_pos_bound x (2 ^ (32 - r)) Hp2) as Hlo.
  rewrite (rotl_split (rotl x r) (32 - r)); [| lia | apply rotl_range; lia].
  replace (32 - (32 - r)) with r by lia.
  rewrite (rotl_split x r) by assumption.
  set (hi := x / 2 ^ (32 - r)) in *. set (lo := x mod 2 ^ (32 - r)) in *.
  replace (hi + 2 ^ r * lo) with (hi + lo * 2 ^ r) by lia.
  rewrite Z.div_add, Z.mod_add by lia.
  rewrite (Z.div_small hi), (Z.mod_small hi) by exact Hhi.
  pose proof (Z.div_mod x (2 ^ (32 - r)) ltac:(lia)) as E.
  fold hi lo in E. lia.
Qed.

(** X3. Rotating a 32-bit value to the left by [r] and then by [32 - r]
    gives the value back, for every count from 1 to 31; both calls are
    defined. *)
Theorem rotl32_round_trip x r t :
  1 <= r <= 31 -> 0 <= x < 2 ^ 32 ->
  (y <- rotl32 x r ;; rotl32 y (32 - r)) t = Some (x, t ++ [r; 32 - r]).
Proof.
  intros Hr Hx.
  eapply bind_run; [apply rotl32_run; exact Hr |].
  rewrite rotl32_run by lia.
  rewrite rotl_rotl by assumption.
  rewrite <- app_assoc. reflexivity.
Qed.

Lemma rotl32_round_trip_witness :
  (1 <= 15 <= 31 /\ 0 <= 0x80000001 < 2 ^ 32) /\
  (y <- rotl32 0x80000001 15 ;; rotl32 y (32 - 15)) [] =
  Some (0x80000001, [] ++ [15; 32 - 15]).
Proof.
  split; [lia |].
  apply (rotl32_round_trip 0x80000001 15 []); lia.
Defined.

(** ** Variant A: no collision between keys that differ in one word *)

Lemma affine5_inj x y :
  0 <= x < 2 ^ 32 -> 0 <= y < 2 ^ 32 ->
  (x * 5 + 0xe6546b64) mod 2 ^ 32 = (y * 5 + 0xe6546b64) mod 2 ^ 32 -> x = y.
Proof.
  intros Hx Hy H.
  apply (f_equal (fun z => (z - 0xe6546b64) mod 2 ^ 32)) in H.
  cbv beta in H. rewrite !Zminus_mod_idemp_l in H.
  rewrite !Z.add_simpl_r in H.
  apply (mul_odd_inj 5 0xCCCCCCCD) in H; [exact H | reflexivity | assumption ..].
Qed.

Lemma block_round_inj_h h h' k :
  0 <= h < 2 ^ 32 -> 0 <= h' < 2 ^ 32 ->
  block_round h k = block_round h' k -> h = h'.
Proof.
  intros Hh Hh' H. unfold block_round in H.
  pose proof (scramble_range k) as Hs.
  apply affine5_inj in H;
    [| apply rotl_range; [lia | apply lxor_range; lia] ..].
  apply rotl_inj in H; [| lia | apply lxor_range; lia ..].
  apply lxor_inj_l in H. exact H.
Qed.

Lemma block_round_inj_k h k k' :
  0 <= h < 2 ^ 32 -> 0 <= k < 2 ^ 32 -> 0 <= k' < 2 ^ 32 ->
  block_round h k = block_round h k' -> k = k'.
Proof.
  intros Hh Hk Hk' H. unfold block_round in H.
  pose proof (scramble_range k) as Hs. pose proof (scramble_range k') as Hs'.
  apply affine5_inj in H;
    [| apply rotl_range; [lia | apply lxor_range; lia] ..].
  apply rotl_inj in H; [| lia | apply lxor_range; lia ..].
  apply lxor_inj_r in H. apply scramble_inj in H; assumption.
Qed.

(** The three blocks and the tail byte of a serialized valid key. *)
Lemma serialize_blocks k :
  valid_key k ->
  block_le (serialize k) 0 = source_address k /\
  block_le (serialize k) 1 = destination_address k /\
  block_le (serialize k) 2 = source_port k + 2 ^ 16 * destination_port k /\
  nth 12 (serialize k) 0 = protocol k.
Proof.
  intros (Hsa & Hda & Hsp & Hdp & Hp).
  unfold block_le, serialize.
  cbn [le_bytes app Nat.mul Nat.add skipn firstn nth le_value].
  change (2 ^ 32) with 4294967296 in *. change (2 ^ 16) with 65536 in *.
  change (2 ^ 8) with 256 in *.
  repeat split; Z.div_mod_to_equations; lia.
Qed.

(** The digest of Variant A is a chain of one-to-one steps over the seed,
    the three block words and the tail byte: two inputs that agree on all
    but one of the five and have the same digest agree on that one too. *)
Lemma murmur_chain_inj seed seed' w0 w0' w1 w1' w2 w2' p p' :
  0 <= seed < 2 ^ 32 -> 0 <= seed' < 2 ^ 32 ->
  0 <= w0 < 2 ^ 32 -> 0 <= w0' < 2 ^ 32 ->
  0 <= w1 < 2 ^ 32 -> 0 <= w1' < 2 ^ 32 ->
  0 <= w2 < 2 ^ 32 -> 0 <= w2' < 2 ^ 32 ->
  0 <= p < 2 ^ 32 -> 0 <= p' < 2 ^ 32 ->
  fmix32 (Z.lxor (Z.lxor (block_round (block_round (block_round seed w0) w1)
                            w2) (scramble p)) 13) =
  fmix32 (Z.lxor (Z.lxor (block_round (block_round (block_round seed' w0') w1')
                            w2') (scramble p')) 13) ->
  (w0 = w0' -> w1 = w1' -> w2 = w2' -> p = p' -> seed = seed') /\
  (seed = seed' -> w1 = w1' -> w2 = w2' -> p = p' -> w0 = w0') /\
  (seed = seed' -> w0 = w0' -> w2 = w2' -> p = p' -> w1 = w1') /\
  (seed = seed' -> w0 = w0' -> w1 = w1' -> p = p' -> w2 = w2') /\
  (seed = seed' -> w0 = w0' -> w1 = w1' -> w2 = w2' -> p = p').
Proof.
  intros Hs Hs' H0 H0' H1 H1' H2 H2' Ht Ht' H.
  pose proof (scramble_range p) as Rp. pose proof (scramble_range p') as Rp'.
  apply fmix32_inj in H;
    [| apply lxor_range;
       [lia | apply lxor_range; [lia | apply block_round_range | lia] | lia] ..].
  apply lxor_inj_l in H.
  split; [| split; [| split; [| split]]].
  - intros E0 E1 E2 Et. subst w0' w1' w2' p'.
    apply lxor_inj_l in H.
    apply block_round_inj_h in H; [| apply block_round_range ..].
    apply block_round_inj_h in H; [| apply block_round_range ..].
    apply block_round_inj_h in H; assumption.
  - intros Es E1 E2 Et. subst seed' w1' w2' p'.
    apply lxor_inj_l in H.
    apply block_round_inj_h in H; [| apply block_round_range ..].
    apply block_round_inj_h in H; [| apply block_round_range ..].
    apply block_round_inj_k in H; assumption.
  - intros Es E0 E2 Et. subst seed' w0' w2' p'.
    apply lxor_inj_l in H.
    apply block_round_inj_h in H; [| apply block_round_range ..].
    apply block_round_inj_k in H;
      [exact H | apply block_round_range | assumption ..].
  - intros Es E0 E1 Et. subst seed' w0' w1' p'.
    apply lxor_inj_l in H.
    apply block_round_inj_k in H;
      [exact H | apply block_round_range | assumption ..].
  - intros Es E0 E1 E2. subst seed' w0' w1' w2'.
    apply lxor_inj_r in H. apply scramble_inj in H; assumption.
Qed.

Lemma hashA_result_words junk k seed :
  length junk = 13%nat -> valid_key k ->
  result (hashA LittleEndian junk k seed) =
  Some (fmix32 (Z.lxor (Z.lxor
          (block_round (block_round (block_round seed (source_address k))
                          (destination_address k))
             (source_port k + 2 ^ 16 * destination_port k))
          (scramble (protocol k))) 13)).
Proof.
  intros Hlen Hk.
  rewrite (result_run _ _ _ (murmurhash3_5tuple_run_le junk k seed [] Hlen)).
  destruct (serialize_blocks k Hk) as (B0 & B1 & B2 & B3).
  unfold reference_murmur3_32, after_blocks. cbn [fold_left]. cbv zeta.
  rewrite B0, B1, B2, B3. reflexivity.
Qed.

Lemma port_word_range k :
  valid_key k ->
  0 <= source_port k + 2 ^ 16 * destination_port k < 2 ^ 32.
Proof. intros (_ & _ & Hsp & Hdp & _). lia. Qed.

(** X4. For a fixed 5-tuple the digest of Variant A (little-endian host)
    is a one-to-one function of the 32-bit seed: two different seeds never
    give the same digest. *)
Theorem murmur3_seed_one_to_one junk junk' k seed seed' :
  length junk = 13%nat -> length junk' = 13%nat -> valid_key k ->
  0 <= seed < 2 ^ 32 -> 0 <= seed' < 2 ^ 32 ->
  result (hashA LittleEndian junk k seed) =
  result (hashA LittleEndian junk' k seed') ->
  seed = seed'.
Proof.
  intros Hlen Hlen' Hk Hs Hs' H.
  rewrite !hashA_result_words in H by assumption.
  apply Some_inj in H.
  pose proof (port_word_range k Hk) as Hw2.
  destruct Hk as (Hsa & Hda & Hsp & Hdp & Hp).
  apply murmur_chain_inj in H; [| lia ..].
  destruct H as (H & _). apply H; reflexivity.
Qed.

Lemma murmur3_seed_one_to_one_witness :
  (length sample_junk = 13%nat /\ valid_key sample_key /\
   0 <= 0 < 2 ^ 32 /\ 0 <= sample_seed < 2 ^ 32) /\
  (result (hashA LittleEndian sample_junk sample_key 0) =
   result (hashA LittleEndian sample_junk sample_key sample_seed) ->
   0 = sample_seed).
Proof.
  assert (Hk : valid_key sample_key)
    by (unfold valid_key, sample_key; cbn; lia).
  split; [repeat split; solve [reflexivity | apply Hk | unfold sample_seed; lia] |].
  apply (murmur3_seed_one_to_one sample_junk sample_junk sample_key 0
           sample_seed);
    solve [reflexivity | exact Hk | unfold sample_seed; lia].
Defined.

(** X5. Two valid 5-tuples that differ in one block of the key only (the
    source address, or the destination address, or the pair of ports, or
    the protocol) never have the same digest in Variant A under the same
    seed (little-endian host). *)
Theorem murmur3_one_word_never_collides junk junk' k k' seed :
  length junk = 13%nat -> length junk' = 13%nat ->
  valid_key k -> valid_key k' -> 0 <= seed < 2 ^ 32 ->
  let same_sa := source_address k = source_address k' in
  let same_da := destination_address k = destination_address k' in
  let same_ports := source_port k = source_port k' /\
                    destination_port k = destination_port k' in
  let same_protocol := protocol k = protocol k' in
  (same_da /\ same_ports /\ same_protocol) \/
  (same_sa /\ same_ports /\ same_protocol) \/
  (same_sa /\ same_da /\ same_protocol) \/
  (same_sa /\ same_da /\ same_ports) ->
  result (hashA LittleEndian junk k seed) =
  result (hashA LittleEndian junk' k' seed) ->
  k = k'.
Proof.
  intros Hlen Hlen' Hk Hk' Hs same_sa same_da same_ports same_protocol
    Hsame H.
  subst same_sa same_da same_ports same_protocol.
  rewrite !hashA_result_words in H by assumption.
  apply Some_inj in H.
  pose proof (port_word_range k Hk) as Hw2.
  pose proof (port_word_range k' Hk') as Hw2'.
  destruct Hk as (Hsa & Hda & Hsp & Hdp & Hp).
  destruct Hk' as (Hsa' & Hda' & Hsp' & Hdp' & Hp').
  apply murmur_chain_inj in H; [| lia ..].
  destruct H as (_ & I0 & I1 & I2 & I3).
  destruct k as [sa da sp dp p], k' as [sa' da' sp' dp' p'].
  cbn [source_address destination_address source_port destination_port
       protocol] in *.
  assert (sa = sa' /\ da = da' /\ sp = sp' /\ dp = dp' /\ p = p')
    as (-> & -> & -> & -> & ->); [| reflexivity].
  destruct Hsame as [(E1 & (E2 & E3) & E4) | [(E0 & (E2 & E3) & E4)
                    | [(E0 & E1 & E4) | (E0 & E1 & E2 & E3)]]].
  - subst. rewrite I0; auto.
  - subst. rewrite I1; auto.
  - subst. assert (sp + 2 ^ 16 * dp = sp' + 2 ^ 16 * dp') by (apply I2; auto).
    repeat split; lia.
  - subst. rewrite I3; auto.
Qed.

Lemma murmur3_one_word_never_collides_witness :
  (length sample_junk = 13%nat /\ valid_key sample_key /\
   valid_key (swap_ports sample_key) /\ 0 <= sample_seed < 2 ^ 32) /\
  (result (hashA LittleEndian sample_junk sample_key sample_seed) =
   result (hashA LittleEndian sample_junk (swap_ports sample_key)
             sample_seed) ->
   sample_key = swap_ports sample_key).
Proof.
  assert (Hk : valid_key sample_key)
    by (unfold valid_key, sample_key; cbn; lia).
  assert (Hk' : valid_key (swap_ports sample_key))
    by (unfold valid_key, swap_ports, sample_key; cbn; lia).
  split; [repeat split;
          solve [reflexivity | apply Hk | apply Hk' | unfold sample_seed; lia] |].
  apply (murmur3_one_word_never_collides sample_junk sample_junk sample_key
           (swap_ports sample_key) sample_seed);
    try solve [reflexivity | exact Hk | exact Hk' | unfold sample_seed; lia].
  right. right. left. repeat split; reflexivity.
Defined.

(** ** Variant B: the source address and the protocol enter as a sum *)

(** X6. In Variant B word 0 of the key and the tail byte are both added
    into A with no mixing in between, so the digest depends on the source
    address and the protocol through their sum modulo 2^32 only: two keys
    with the same destination address and ports and the same sum have the
    same digest under every seed. *)
Theorem jenkins_address_plus_protocol junk junk' k k' seed t :
  length junk = 13%nat -> length junk' = 13%nat ->
  valid_key k -> valid_key k' ->
  destination_address k = destination_address k' ->
  source_port k = source_port k' ->
  destination_port k = destination_port k' ->
  (source_address k + protocol k) mod 2 ^ 32 =
  (source_address k' + protocol k') mod 2 ^ 32 ->
  hashB junk k seed t = hashB junk' k' seed t.
Proof.
  intros Hlen Hlen' Hk Hk' Eda Esp Edp Esum.
  rewrite !jenkins_hash_5tuple_run by assumption.
  destruct (serialize_blocks k Hk) as (B0 & B1 & B2 & B3).
  destruct (serialize_blocks k' Hk') as (B0' & B1' & B2' & B3').
  unfold absorbed. cbv zeta.
  rewrite B0, B1, B2, B3, B0', B1', B2', B3'.
  rewrite Eda, Esp, Edp.
  rewrite <- !Z.add_assoc.
  rewrite (Z.add_mod _ (source_address k + protocol k)) by lia.
  rewrite Esum.
  rewrite <- Z.add_mod by lia.
  reflexivity.
Qed.

Lemma jenkins_address_plus_protocol_witness :
  let k := {| source_address := 0xC0A8010C; destination_address := 0x08080808;
              source_port := 12345; destination_port := 80; protocol := 6 |} in
  let k' := {| source_address := 0xC0A80101; destination_address := 0x08080808;
               source_port := 12345; destination_port := 80;
               protocol := 17 |} in
  (length sample_junk = 13%nat /\ valid_key k /\ valid_key k' /\
   (source_address k + protocol k) mod 2 ^ 32 =
   (source_address k' + protocol k') mod 2 ^ 32) /\
  hashB sample_junk k sample_seed [] = hashB sample_junk k' sample_seed [].
Proof.
  intros k k'.
  assert (Hk : valid_key k) by (unfold valid_key, k; cbn; lia).
  assert (Hk' : valid_key k') by (unfold valid_key, k'; cbn; lia).
  split; [repeat split; solve [reflexivity | apply Hk | apply Hk'] |].
  apply (jenkins_address_plus_protocol sample_junk sample_junk k k'
           sample_seed []);
    solve [reflexivity | exact Hk | exact Hk'].
Defined.

(** ** [murmur3_32] on keys of any length *)

Lemma list_ind4 {A} (P : list A -> Prop) :
  P [] -> (forall a, P [a]) -> (forall a b, P [a; b]) ->
  (forall a b c, P [a; b; c]) ->
  (forall a b c d rest, P rest -> P (a :: b :: c :: d :: rest)) ->
  forall l, P l.
Proof.
  intros H0 H1 H2 H3 H4.
  fix IH 1. intros l.
  destruct l as [| a [| b [| c [| d rest]]]];
    [apply H0 | apply H1 | apply H2 | apply H3 | apply H4; apply IH].
Qed.

Lemma load8_at pre b rest i t :
  i = Z.of_nat (length pre) -> load8 (pre ++ b :: rest) i t = Some (b, t).
Proof.
  intros ->. unfold load8, lift.
  destruct (Z.leb_spec 0 (Z.of_nat (length pre))) as [_ | H]; [| lia].
  rewrite Nat2Z.id, nth_error_app2 by lia.
  rewrite Nat.sub_diag. reflexivity.
Qed.

Lemma load8_beyond key i t :
  Z.of_nat (length key) <= i -> load8 key i t = None.
Proof.
  intros H. unfold load8, lift.
  destruct (Z.leb_spec 0 i) as [_ | H0]; [| reflexivity].
  assert (E : nth_error key (Z.to_nat i) = None)
    by (apply nth_error_None; lia).
  rewrite E. reflexivity.
Qed.

Lemma load32_at e pre b0 b1 b2 b3 rest i t :
  i = Z.of_nat (length pre) ->
  load32 e (pre ++ b0 :: b1 :: b2 :: b3 :: rest) i t =
  Some (value_of e [b0; b1; b2; b3], t).
Proof.
  intros Hi. unfold load32.
  eapply bind_run; [apply load8_at; exact Hi |].
  eapply bind_run.
  { change (pre ++ b0 :: b1 :: b2 :: b3 :: rest)
      with (pre ++ [b0] ++ b1 :: b2 :: b3 :: rest).
    rewrite app_assoc. apply load8_at. rewrite length_app. cbn [length]. lia. }
  eapply bind_run.
  { change (pre ++ b0 :: b1 :: b2 :: b3 :: rest)
      with (pre ++ [b0; b1] ++ b2 :: b3 :: rest).
    rewrite app_assoc. apply load8_at. rewrite length_app. cbn [length]. lia. }
  eapply bind_run.
  { change (pre ++ b0 :: b1 :: b2 :: b3 :: rest)
      with (pre ++ [b0; b1; b2] ++ b3 :: rest).
    rewrite app_assoc. apply load8_at. rewrite length_app. cbn [length]. lia. }
  reflexivity.
Qed.

Lemma blocks_at_app e bs :
  forall pre extra i,
    Z.of_nat (length pre) = 4 * i ->
    blocks_at e (pre ++ bs ++ extra) i (blocks_of e bs).
Proof.
  induction bs as [| a | a b | a b c | a b c d rest IH] using list_ind4;
    intros pre extra i Hi; cbn [blocks_of blocks_at]; try exact I.
  split.
  - intros t. cbn [app]. apply load32_at. lia.
  - change (pre ++ (a :: b :: c :: d :: rest) ++ extra)
      with (pre ++ [a; b; c; d] ++ rest ++ extra).
    rewrite app_assoc. apply IH. rewrite length_app. cbn [length]. lia.
Qed.

(** A byte string is its full blocks followed by its left-over bytes. *)
Lemma blocks_tail_split e bs :
  exists pre,
    bs = pre ++ tail_of bs /\
    Z.of_nat (length pre) = 4 * Z.of_nat (length (blocks_of e bs)) /\
    (length (tail_of bs) < 4)%nat.
Proof.
  induction bs as [| a | a b | a b c | a b c d rest IH] using list_ind4;
    cbn [blocks_of tail_of length].
  - exists []. repeat split; cbn; lia.
  - exists []. repeat split; cbn; lia.
  - exists []. repeat split; cbn; lia.
  - exists []. repeat split; cbn; lia.
  - destruct IH as (pre & E & Hlen & Ht).
    exists (a :: b :: c :: d :: pre). cbn [app length].
    repeat split; [congruence | lia | exact Ht].
Qed.

Lemma length_blocks_tail e bs :
  Z.of_nat (length bs) =
  4 * Z.of_nat (length (blocks_of e bs)) + Z.of_nat (length (tail_of bs)).
Proof.
  destruct (blocks_tail_split e bs) as (pre & E & Hlen & _).
  rewrite E at 1. rewrite length_app. lia.
Qed.

Lemma load8_at_off pre mid b rest i t :
  i = Z.of_nat (length pre) + Z.of_nat (length mid) ->
  load8 (pre ++ mid ++ b :: rest) i t = Some (b, t).
Proof.
  intros Hi. rewrite app_assoc. apply load8_at.
  rewrite length_app. lia.
Qed.

Lemma land_shiftl_low lo hi n :
  0 <= n -> 0 <= lo < 2 ^ n -> Z.land lo (Z.shiftl hi n) = 0.
Proof.
  intros Hn Hlo. apply Z.bits_inj'. intros i Hi.
  rewrite Z.land_spec, Z.bits_0.
  destruct (Z.ltb_spec i n).
  - rewrite Z.shiftl_spec_low by lia. apply andb_false_r.
  - rewrite (testbit_high lo n) by lia. reflexivity.
Qed.

Lemma lxor_shiftl_add lo hi n :
  0 <= n -> 0 <= lo < 2 ^ n -> Z.lxor lo (Z.shiftl hi n) = lo + 2 ^ n * hi.
Proof.
  intros Hn Hlo.
  rewrite Z.lxor_lor by (apply land_shiftl_low; assumption).
  apply lor_shiftl_add; assumption.
Qed.

(** The partial word the [switch] builds from two and from three
    left-over bytes. *)
Lemma tail2_code t0 t1 :
  0 <= t0 < 2 ^ 8 -> 0 <= t1 < 2 ^ 8 ->
  Z.lxor (Z.lxor 0 (u32 (int (Z.shiftl t1 8)))) t0 = le_value [t0; t1].
Proof.
  intros H0 H1. rewrite u32_int, Z.lxor_0_l.
  rewrite u32_small by (rewrite Z.shiftl_mul_pow2; lia).
  rewrite Z.lxor_comm, lxor_shiftl_add by lia.
  cbn [le_value]. lia.
Qed.

Lemma tail3_code t0 t1 t2 :
  0 <= t0 < 2 ^ 8 -> 0 <= t1 < 2 ^ 8 -> 0 <= t2 < 2 ^ 8 ->
  Z.lxor (Z.lxor (Z.lxor 0 (u32 (int (Z.shiftl t2 16))))
            (u32 (int (Z.shiftl t1 8)))) t0 = le_value [t0; t1; t2].
Proof.
  intros H0 H1 H2. rewrite !u32_int, Z.lxor_0_l.
  rewrite !u32_small by (rewrite Z.shiftl_mul_pow2; lia).
  transitivity (Z.lxor t0 (Z.shiftl (Z.lxor t1 (Z.shiftl t2 8)) 8)).
  { rewrite Z.shiftl_lxor, Z.shiftl_shiftl by lia. change (8 + 8) with 16.
    rewrite Z.lxor_comm. f_equal. apply Z.lxor_comm. }
  rewrite (lxor_shiftl_add t1) by lia.
  rewrite lxor_shiftl_add by lia.
  cbn [le_value]. lia.
Qed.

Lemma blocks_of_length e e' bs :
  length (blocks_of e bs) = length (blocks_of e' bs).
Proof.
  induction bs as [| a | a b | a b c | a b c d rest IH] using list_ind4;
    cbn [blocks_of length]; congruence.
Qed.

Lemma flat_map_const {A B} (l : list B) (xs ys : list A) :
  length xs = length ys ->
  flat_map (fun _ => l) xs = flat_map (fun _ => l) ys.
Proof.
  revert ys. induction xs as [| x xs IH]; intros [| y ys] H;
    cbn [length flat_map] in *; try discriminate; [reflexivity |].
  f_equal. apply IH. congruence.
Qed.

Lemma bytes_tail_of bs : bytes bs -> bytes (tail_of bs).
Proof.
  unfold bytes.
  induction bs as [| a | a b | a b c | a b c d rest IH] using list_ind4;
    cbn [tail_of]; intros H; try exact H.
  apply IH. repeat (apply Forall_inv_tail in H). exact H.
Qed.

(** [murmur3_32] on the first [length used] bytes of any array. *)
Lemma murmur3_32_run e used extra seed t :
  bytes used ->
  murmur3_32 e (used ++ extra) (Z.of_nat (length used)) seed t =
  Some (murmur3_any e used seed, t ++ murmur3_any_rotations used).
Proof.
  intros Hb.
  destruct (blocks_tail_split e used) as (pre & E & Hpre & Htl).
  pose proof (length_blocks_tail e used) as Hlen.
  pose proof (bytes_tail_of used Hb) as Htb.
  assert (Hq : Z.of_nat (length used) / 4 =
               Z.of_nat (length (blocks_of e used))).
  { symmetry.
    apply (Z.div_unique _ 4 _ (Z.of_nat (length (tail_of used)))); lia. }
  assert (Hsw : Z.land (Z.of_nat (length used)) 3 =
                Z.of_nat (length (tail_of used))).
  { change 3 with (Z.ones 2). rewrite Z.land_ones by lia. symmetry.
    apply (Z.mod_unique _ (2 ^ 2) (Z.of_nat (length (blocks_of e used))));
      lia. }
  assert (Hkey : used ++ extra = pre ++ tail_of used ++ extra).
  { rewrite E at 1. rewrite <- app_assoc. reflexivity. }
  unfold murmur3_32. cbv zeta. rewrite Hq, Hsw, Nat2Z.id.
  eapply bind_run.
  { apply murmur3_blocks_run. apply (blocks_at_app e used [] extra 0).
    reflexivity. }
  cbv beta.
  rewrite Hkey.
  unfold murmur3_any, murmur3_any_rotations, tail_mix.
  rewrite (flat_map_const [15; 13] (blocks_of LittleEndian used)
             (blocks_of e used) (blocks_of_length _ _ _)).
  set (h := fold_left block_round (blocks_of e used) seed).
  set (tr := flat_map (fun _ => [15; 13]) (blocks_of e used)).
  set (len := Z.of_nat (length used)).
  assert (Hoff : Z.of_nat (length (blocks_of e used)) * 4 =
                 Z.of_nat (length pre)) by lia.
  rewrite Hoff.
  unfold bytes in Htb.
  destruct (tail_of used) as [| t0 [| t1 [| t2 [| t3 tl]]]];
    cbn [length] in Htl; try lia; cbn [length Z.of_nat Pos.of_succ_nat
      Pos.succ Z.eqb Pos.eqb orb app].
  - run. cbv zeta. rewrite fmix32_code. rewrite app_nil_r. reflexivity.
  - do 2 run_step.
    eapply bind_run.
    { eapply bind_run;
        [apply (load8_at_off pre [] t0 extra); cbn [length]; lia |].
      cbv beta zeta. run_prim. }
    cbv beta zeta. run. cbv zeta. rewrite fmix32_code.
    rewrite Z.lxor_0_l, scramble_code.
    replace (le_value [t0]) with t0 by (cbn [le_value]; lia).
    repeat rewrite <- app_assoc. reflexivity.
  - inversion Htb as [| ? ? H0 Htb1]; subst.
    inversion Htb1 as [| ? ? H1 _]; subst.
    run_step.
    eapply bind_run.
    { eapply bind_run;
        [apply (load8_at_off pre [t0] t1 extra); cbn [length]; lia |].
      cbv beta zeta. run_prim. }
    cbv beta zeta.
    eapply bind_run.
    { eapply bind_run;
        [apply (load8_at_off pre [] t0 (t1 :: extra)); cbn [length]; lia |].
      cbv beta zeta. run_prim. }
    cbv beta zeta. run. cbv zeta. rewrite fmix32_code.
    rewrite tail2_code, scramble_code by assumption.
    repeat rewrite <- app_assoc. reflexivity.
  - inversion Htb as [| ? ? H0 Htb1]; subst.
    inversion Htb1 as [| ? ? H1 Htb2]; subst.
    inversion Htb2 as [| ? ? H2 _]; subst.
    eapply bind_run.
    { eapply bind_run;
        [apply (load8_at_off pre [t0; t1] t2 extra); cbn [length]; lia |].
      cbv beta zeta. run_prim. }
    cbv beta zeta.
    eapply bind_run.
    { eapply bind_run;
        [apply (load8_at_off pre [t0] t1 (t2 :: extra)); cbn [length]; lia |].
      cbv beta zeta. run_prim. }
    cbv beta zeta.
    eapply bind_run.
    { eapply bind_run;
        [apply (load8_at_off pre [] t0 (t1 :: t2 :: extra));
         cbn [length]; lia |].
      cbv beta zeta. run_prim. }
    cbv beta zeta. run. cbv zeta. rewrite fmix32_code.
    rewrite tail3_code, scramble_code by assumption.
    repeat rewrite <- app_assoc. reflexivity.
Qed.

Lemma murmur3_any_range e bs seed : 0 <= murmur3_any e bs seed < 2 ^ 32.
Proof. unfold murmur3_any. cbv zeta. apply fmix32_range. Qed.

(** X7. [murmur3_32] handles keys of every length: given an array and the
    number [len] of its leading bytes to hash, it reads those bytes only
    (what follows them does not matter), never leaves the array, and
    returns the MurmurHash3-32 of the [len] bytes: one round per full
    4-byte block, then the 1, 2 or 3 left-over bytes as one partial word,
    then the length and the avalanche. It rotates twice per block and
    once more when bytes are left over. The digest is a 32-bit value. *)
Theorem murmur3_32_any_length e used extra seed :
  bytes used ->
  result (murmur3_32 e (used ++ extra) (Z.of_nat (length used)) seed) =
    Some (murmur3_any e used seed) /\
  rotations (murmur3_32 e (used ++ extra) (Z.of_nat (length used)) seed) =
    Some (murmur3_any_rotations used) /\
  0 <= murmur3_any e used seed < 2 ^ 32.
Proof.
  intros Hb.
  pose proof (murmur3_32_run e used extra seed [] Hb) as Hrun.
  split; [exact (result_run _ _ _ Hrun) |].
  split; [exact (rotations_run _ _ _ Hrun) | apply murmur3_any_range].
Qed.

Lemma murmur3_32_any_length_witness :
  bytes [1; 2; 3; 4; 5; 6; 7] /\
  result (murmur3_32 LittleEndian ([1; 2; 3; 4; 5; 6; 7] ++ [99; 98])
            (Z.of_nat (length [1; 2; 3; 4; 5; 6; 7])) sample_seed) =
  Some (murmur3_any LittleEndian [1; 2; 3; 4; 5; 6; 7] sample_seed).
Proof.
  assert (Hb : bytes [1; 2; 3; 4; 5; 6; 7])
    by (unfold bytes; repeat constructor; lia).
  split; [exact Hb |].
  apply (murmur3_32_any_length LittleEndian [1; 2; 3; 4; 5; 6; 7] [99; 98]
           sample_seed Hb).
Defined.

(** *** Reads outside the array *)

Lemma load8_within key i t :
  0 <= i < Z.of_nat (length key) -> exists b, load8 key i t = Some (b, t).
Proof.
  intros Hi. unfold load8, lift.
  destruct (Z.leb_spec 0 i) as [_ | H0]; [| lia].
  destruct (nth_error key (Z.to_nat i)) as [b |] eqn:E.
  - exists b. reflexivity.
  - apply nth_error_None in E. lia.
Qed.

Lemma load32_within e key off t :
  0 <= off -> off + 4 <= Z.of_nat (length key) ->
  exists w, load32 e key off t = Some (w, t).
Proof.
  intros H0 H1.
  destruct (load8_within key off t ltac:(lia)) as [b0 E0].
  destruct (load8_within key (off + 1) t ltac:(lia)) as [b1 E1].
  destruct (load8_within key (off + 2) t ltac:(lia)) as [b2 E2].
  destruct (load8_within key (off + 3) t ltac:(lia)) as [b3 E3].
  exists (value_of e [b0; b1; b2; b3]). unfold load32.
  eapply bind_run; [exact E0 |]. eapply bind_run; [exact E1 |].
  eapply bind_run; [exact E2 |]. eapply bind_run; [exact E3 |].
  reflexivity.
Qed.

Lemma load32_beyond e key off t :
  0 <= off -> Z.of_nat (length key) < off + 4 -> load32 e key off t = None.
Proof.
  intros H0 H1. unfold load32, bind.
  destruct (Z_lt_le_dec off (Z.of_nat (length key))) as [L0 | L0];
    [| rewrite load8_beyond by lia; reflexivity].
  destruct (load8_within key off t ltac:(lia)) as [b0 E0]. rewrite E0.
  destruct (Z_lt_le_dec (off + 1) (Z.of_nat (length key))) as [L1 | L1];
    [| rewrite load8_beyond by lia; reflexivity].
  destruct (load8_within key (off + 1) t ltac:(lia)) as [b1 E1]. rewrite E1.
  destruct (Z_lt_le_dec (off + 2) (Z.of_nat (length key))) as [L2 | L2];
    [| rewrite load8_beyond by lia; reflexivity].
  destruct (load8_within key (off + 2) t ltac:(lia)) as [b2 E2]. rewrite E2.
  rewrite load8_beyond by lia. reflexivity.
Qed.

(** One iteration of the block loop on a block inside the array. *)
Lemma murmur3_blocks_step e key n i h t :
  0 <= i -> 4 * i + 4 <= Z.of_nat (length key) ->
  exists h' t',
    murmur3_blocks e key (S n) i h t = murmur3_blocks e key n (i + 1) h' t'.
Proof.
  intros H0 H1.
  destruct (load32_within e key (4 * i) t ltac:(lia) ltac:(lia)) as [w Ew].
  cbn [murmur3_blocks].
  eexists. eexists.
  eapply bind_run; [exact Ew | cbv beta zeta].
  run. reflexivity.
Qed.

Lemma murmur3_blocks_beyond e key n :
  forall i h t,
    0 <= i -> 4 * i <= Z.of_nat (length key) ->
    Z.of_nat (length key) < 4 * (i + Z.of_nat n) ->
    murmur3_blocks e key n i h t = None.
Proof.
  induction n as [| n IH]; intros i h t H0 H1 H2; [lia |].
  destruct (Z_lt_le_dec (Z.of_nat (length key)) (4 * i + 4)) as [L | L].
  - cbn [murmur3_blocks]. unfold bind at 1.
    rewrite load32_beyond by lia. reflexivity.
  - destruct (murmur3_blocks_step e key n i h t H0 L) as (h' & t' & E).
    rewrite E. apply IH; lia.
Qed.

Lemma murmur3_blocks_within e key n :
  forall i h t,
    0 <= i -> 4 * (i + Z.of_nat n) <= Z.of_nat (length key) ->
    exists h' t', murmur3_blocks e key n i h t = Some (h', t').
Proof.
  induction n as [| n IH]; intros i h t H0 H1.
  - exists h, t. reflexivity.
  - destruct (murmur3_blocks_step e key n i h t H0 ltac:(lia))
      as (h' & t' & E).
    rewrite E. apply IH; lia.
Qed.

(** X8. [murmur3_32] reads every byte below [len]: when [len] exceeds the
    size of the array it is given, it reads outside the array, which C
    leaves undefined (the computation fails). *)
Theorem murmur3_32_len_beyond_array e key len seed t :
  Z.of_nat (length key) < len -> murmur3_32 e key len seed t = None.
Proof.
  intros Hlen.
  assert (Hpos : 0 <= len) by lia.
  pose proof (Z.div_mod len 4 ltac:(lia)) as Hdm.
  pose proof (Z.mod_pos_bound len 4 ltac:(lia)) as Hm.
  assert (Hq : 0 <= len / 4) by (apply Z.div_pos; lia).
  assert (Hsw : Z.land len 3 = len mod 4).
  { change 3 with (Z.ones 2). rewrite Z.land_ones by lia. reflexivity. }
  unfold murmur3_32. cbv zeta. rewrite Hsw.
  destruct (Z_lt_le_dec (Z.of_nat (length key)) (4 * (len / 4))) as [L | L].
  - unfold bind at 1.
    rewrite murmur3_blocks_beyond; [reflexivity | lia | lia |].
    rewrite Z2Nat.id by lia. lia.
  - destruct (murmur3_blocks_within e key (Z.to_nat (len / 4)) 0 seed t)
      as (h & t' & E); [lia | rewrite Z2Nat.id by lia; lia |].
    eapply bind_run; [exact E | cbv beta].
    assert (Hr : len mod 4 = 1 \/ len mod 4 = 2 \/ len mod 4 = 3) by lia.
    destruct Hr as [Hr | [Hr | Hr]]; rewrite Hr;
      cbn [Z.eqb Pos.eqb orb]; unfold bind, ret;
      rewrite load8_beyond by lia; reflexivity.
Qed.

Lemma murmur3_32_len_beyond_array_witness :
  Z.of_nat (length [1; 2; 3; 4; 5]) < 6 /\
  murmur3_32 LittleEndian [1; 2; 3; 4; 5] 6 sample_seed [] = None.
Proof.
  split; [cbn; lia |].
  apply (murmur3_32_len_beyond_array LittleEndian [1; 2; 3; 4; 5] 6
           sample_seed []).
  cbn; lia.
Defined.

(** *** The empty key, padding, and the seed *)

(** X9. With [len = 0] no byte of the array is read and no rotate is
    called: the digest is the avalanche of the seed alone, whatever the
    array holds, even an empty one. With seed 0 it is 0. *)
Theorem murmur3_32_empty_key e key seed :
  0 <= seed < 2 ^ 32 ->
  result (murmur3_32 e key 0 seed) = Some (fmix32 seed) /\
  rotations (murmur3_32 e key 0 seed) = Some [] /\
  result (murmur3_32 e key 0 0) = Some 0.
Proof.
  intros Hs.
  assert (Hrun : forall s, 0 <= s < 2 ^ 32 ->
            murmur3_32 e key 0 s [] = Some (fmix32 s, [])).
  { intros s Hr.
    pose proof (murmur3_32_run e [] key s [] (Forall_nil _)) as H.
    cbn [app length Z.of_nat] in H. rewrite H.
    unfold murmur3_any, murmur3_any_rotations, tail_mix.
    cbn [blocks_of tail_of fold_left flat_map length Z.of_nat app].
    rewrite Z.lxor_0_r, Z.mod_small by exact Hr. reflexivity. }
  split; [exact (result_run _ _ _ (Hrun seed Hs)) |].
  split; [exact (rotations_run _ _ _ (Hrun seed Hs)) |].
  exact (result_run _ _ _ (Hrun 0 ltac:(lia))).
Qed.

Lemma murmur3_32_empty_key_witness :
  0 <= 1 < 2 ^ 32 /\
  result (murmur3_32 LittleEndian [] 0 1) = Some 0x514E28B7.
Proof.
  split; [lia |].
  destruct (murmur3_32_empty_key LittleEndian [] 1 ltac:(lia)) as (H & _).
  rewrite H. vm_compute. reflexivity.
Defined.

Lemma blocks_tail_snoc e b bs :
  (length (tail_of bs) < 3)%nat ->
  blocks_of e (bs ++ [b]) = blocks_of e bs /\
  tail_of (bs ++ [b]) = tail_of bs ++ [b].
Proof.
  induction bs as [| a0 | a0 a1 | a0 a1 a2 | a0 a1 a2 a3 rest IH]
    using list_ind4; cbn [tail_of length app blocks_of]; intros H.
  - split; reflexivity.
  - split; reflexivity.
  - split; reflexivity.
  - lia.
  - destruct (IH H) as [E1 E2]. rewrite E1, E2. split; reflexivity.
Qed.

Lemma fold_block_round_range ws seed :
  0 <= seed < 2 ^ 32 -> 0 <= fold_left block_round ws seed < 2 ^ 32.
Proof.
  revert seed. induction ws as [| w ws IH]; intros seed Hs; cbn [fold_left].
  - exact Hs.
  - apply IH. apply block_round_range.
Qed.

Lemma fold_block_round_inj ws seed seed' :
  0 <= seed < 2 ^ 32 -> 0 <= seed' < 2 ^ 32 ->
  fold_left block_round ws seed = fold_left block_round ws seed' ->
  seed = seed'.
Proof.
  revert seed seed'. induction ws as [| w ws IH]; intros seed seed' Hs Hs' H;
    cbn [fold_left] in H.
  - exact H.
  - apply IH in H; [| apply block_round_range ..].
    apply block_round_inj_h in H; assumption.
Qed.

Lemma tail_mix_range h tl : 0 <= h < 2 ^ 32 -> 0 <= tail_mix h tl < 2 ^ 32.
Proof.
  intros Hh. destruct tl; [exact Hh |].
  apply lxor_range; [lia | exact Hh | apply scramble_range].
Qed.

Lemma tail_mix_inj h h' tl : tail_mix h tl = tail_mix h' tl -> h = h'.
Proof.
  destruct tl; intros H; [exact H | apply lxor_inj_l in H; exact H].
Qed.

(** A zero byte after fewer than three left-over bytes does not change
    what they contribute. *)
Lemma tail_mix_zero h tl :
  (length tl < 3)%nat -> tail_mix h (tl ++ [0]) = tail_mix h tl.
Proof.
  intros Ht. destruct tl as [| t0 [| t1 [| t2 tl]]];
    cbn [length] in Ht; try lia; unfold tail_mix; cbn [app le_value].
  - change (scramble (0 + 2 ^ 8 * 0)) with 0. apply Z.lxor_0_r.
  - do 2 f_equal; try lia.
  - do 2 f_equal; try lia.
Qed.

(** X10. The length is part of the digest: a key of bytes whose length is
    not 3 modulo 4 and the same key followed by one zero byte never have
    the same digest under the same seed, although the zero byte changes
    neither the blocks nor the value of the partial word. *)
Theorem murmur3_32_zero_padding_changes_digest e used seed :
  bytes used -> (length (tail_of used) < 3)%nat ->
  0 <= seed < 2 ^ 32 -> Z.of_nat (length used) + 1 < 2 ^ 32 ->
  result (murmur3_32 e used (Z.of_nat (length used)) seed) <>
  result (murmur3_32 e (used ++ [0]) (Z.of_nat (length used) + 1) seed).
Proof.
  intros Hb Ht Hs Hlen.
  pose proof (murmur3_32_run e used [] seed [] Hb) as R1.
  rewrite app_nil_r in R1.
  assert (Hb' : bytes (used ++ [0])).
  { unfold bytes. apply Forall_app. split; [exact Hb |].
    repeat constructor; lia. }
  pose proof (murmur3_32_run e (used ++ [0]) [] seed [] Hb') as R2.
  rewrite app_nil_r, length_app in R2. cbn [length] in R2.
  replace (Z.of_nat (length used + 1)) with (Z.of_nat (length used) + 1)
    in R2 by lia.
  rewrite (result_run _ _ _ R1), (result_run _ _ _ R2).
  intros H. apply Some_inj in H.
  unfold murmur3_any in H. cbv zeta in H.
  destruct (blocks_tail_snoc e 0 used Ht) as [Eb Etl].
  rewrite Eb, Etl, length_app, tail_mix_zero in H by exact Ht.
  cbn [length] in H.
  pose proof (fold_block_round_range (blocks_of e used) seed Hs) as Hh.
  pose proof (tail_mix_range _ (tail_of used) Hh) as Hg.
  rewrite !Z.mod_small in H by (apply lxor_range; lia).
  apply fmix32_inj in H; [| apply lxor_range; lia ..].
  apply lxor_inj_r in H. lia.
Qed.

Lemma murmur3_32_zero_padding_changes_digest_witness :
  (bytes [1; 2; 3; 4; 5] /\ Nat.lt (length (tail_of [1; 2; 3; 4; 5])) 3 /\
   0 <= sample_seed < 2 ^ 32 /\
   Z.of_nat (length [1; 2; 3; 4; 5]) + 1 < 2 ^ 32) /\
  result (murmur3_32 LittleEndian [1; 2; 3; 4; 5]
            (Z.of_nat (length [1; 2; 3; 4; 5])) sample_seed) <>
  result (murmur3_32 LittleEndian ([1; 2; 3; 4; 5] ++ [0])
            (Z.of_nat (length [1; 2; 3; 4; 5]) + 1) sample_seed).
Proof.
  assert (Hb : bytes [1; 2; 3; 4; 5])
    by (unfold bytes; repeat constructor; lia).
  split.
  - split; [exact Hb |]. cbn [tail_of length]. unfold sample_seed. lia.
  - apply (murmur3_32_zero_padding_changes_digest LittleEndian [1; 2; 3; 4; 5]
             sample_seed Hb); cbn [tail_of length]; unfold sample_seed; lia.
Defined.

(** X11. For a fixed key of bytes of any length below 2^32, the digest
    [murmur3_32] returns is a one-to-one function of the 32-bit seed. *)
Theorem murmur3_32_seed_one_to_one e used extra extra' seed seed' :
  bytes used -> Z.of_nat (length used) < 2 ^ 32 ->
  0 <= seed < 2 ^ 32 -> 0 <= seed' < 2 ^ 32 ->
  result (murmur3_32 e (used ++ extra) (Z.of_nat (length used)) seed) =
  result (murmur3_32 e (used ++ extra') (Z.of_nat (length used)) seed') ->
  seed = seed'.
Proof.
  intros Hb Hlen Hs Hs' H.
  rewrite (result_run _ _ _ (murmur3_32_run e used extra seed [] Hb)) in H.
  rewrite (result_run _ _ _ (murmur3_32_run e used extra' seed' [] Hb)) in H.
  apply Some_inj in H. unfold murmur3_any in H. cbv zeta in H.
  pose proof (fold_block_round_range (blocks_of e used) seed Hs) as Hh.
  pose proof (fold_block_round_range (blocks_of e used) seed' Hs') as Hh'.
  pose proof (tail_mix_range _ (tail_of used) Hh) as Hg.
  pose proof (tail_mix_range _ (tail_of used) Hh') as Hg'.
  rewrite !Z.mod_small in H by (apply lxor_range; lia).
  apply fmix32_inj in H; [| apply lxor_range; lia ..].
  apply lxor_inj_l, tail_mix_inj in H.
  apply (fold_block_round_inj (blocks_of e used)); assumption.
Qed.

Lemma murmur3_32_seed_one_to_one_witness :
  (bytes [1; 2; 3; 4; 5] /\ Z.of_nat (length [1; 2; 3; 4; 5]) < 2 ^ 32 /\
   0 <= 0 < 2 ^ 32 /\ 0 <= 1 < 2 ^ 32) /\
  (result (murmur3_32 LittleEndian ([1; 2; 3; 4; 5] ++ [])
             (Z.of_nat (length [1; 2; 3; 4; 5])) 0) =
   result (murmur3_32 LittleEndian ([1; 2; 3; 4; 5] ++ [7])
             (Z.of_nat (length [1; 2; 3; 4; 5])) 1) -> 0 = 1).
Proof.
  assert (Hb : bytes [1; 2; 3; 4; 5])
    by (unfold bytes; repeat constructor; lia).
  split.
  - split; [exact Hb |]. cbn [length]. lia.
  - apply (murmur3_32_seed_one_to_one LittleEndian [1; 2; 3; 4; 5] [] [7]
             0 1 Hb); cbn [length]; lia.
Defined.

(** ** Variant A on a big-endian host, for every key *)

Lemma swap_ports_valid k : valid_key k -> valid_key (swap_ports k).
Proof.
  intros (Hsa & Hda & Hsp & Hdp & Hp). unfold valid_key, swap_ports.
  cbn [source_address destination_address source_port destination_port
       protocol].
  auto.
Qed.

(** X12. On a big-endian host [murmurhash3_5tuple] returns, for every
    valid 5-tuple and seed, the digest a little-endian host returns for the
    5-tuple with the two ports exchanged; the two hosts agree on a 5-tuple
    exactly when its source port equals its destination port. *)
Theorem murmur3_big_endian_host junk k seed :
  length junk = 13%nat -> valid_key k -> 0 <= seed < 2 ^ 32 ->
  (forall t, hashA BigEndian junk k seed t =
             hashA LittleEndian junk (swap_ports k) seed t) /\
  (result (hashA BigEndian junk k seed) =
   result (hashA LittleEndian junk k seed) <->
   source_port k = destination_port k).
Proof.
  intros Hlen Hk Hs.
  pose proof (swap_ports_valid k Hk) as Hk'.
  split; [intros t; apply murmur3_big_endian_swaps_ports; exact Hlen |].
  assert (E : result (hashA BigEndian junk k seed) =
              result (hashA LittleEndian junk (swap_ports k) seed)).
  { unfold result.
    rewrite (murmur3_big_endian_swaps_ports junk k seed [] Hlen).
    reflexivity. }
  rewrite E. rewrite !hashA_result_words by assumption.
  pose proof (port_word_range k Hk) as Hw.
  pose proof (port_word_range (swap_ports k) Hk') as Hw'.
  destruct Hk as (Hsa & Hda & Hsp & Hdp & Hp).
  unfold swap_ports in *.
  cbn [source_address destination_address source_port destination_port
       protocol] in *.
  split.
  - intros H. apply Some_inj in H.
    apply murmur_chain_inj in H; [| lia ..].
    destruct H as (_ & _ & _ & I2 & _).
    assert (destination_port k + 2 ^ 16 * source_port k =
            source_port k + 2 ^ 16 * destination_port k)
      by (apply I2; reflexivity).
    lia.
  - intros H. rewrite H. reflexivity.
Qed.

Lemma murmur3_big_endian_host_witness :
  (length sample_junk = 13%nat /\ valid_key sample_key /\
   0 <= sample_seed < 2 ^ 32) /\
  (result (hashA BigEndian sample_junk sample_key sample_seed) =
   result (hashA LittleEndian sample_junk sample_key sample_seed) <->
   source_port sample_key = destination_port sample_key).
Proof.
  assert (Hk : valid_key sample_key)
    by (unfold valid_key, sample_key; cbn; lia).
  split; [repeat split; solve [reflexivity | apply Hk | unfold sample_seed; lia] |].
  apply (murmur3_big_endian_host sample_junk sample_key sample_seed);
    solve [reflexivity | exact Hk | unfold sample_seed; lia].
Defined.

(** Published test vectors of MurmurHash3-32 (the empty key with seeds 0
    and 1, "abc" with seed 0, "Hello, world!" with seed 1234), on
    [murmur3_32] itself. *)
Example murmur3_32_test_vectors :
  result (murmur3_32 LittleEndian [] 0 0) = Some 0 /\
  result (murmur3_32 LittleEndian [] 0 1) = Some 0x514E28B7 /\
  result (murmur3_32 LittleEndian [97; 98; 99] 3 0) = Some 0xB3DD93FA /\
  result (murmur3_32 LittleEndian
            [72; 101; 108; 108; 111; 44; 32; 119; 111; 114; 108; 100; 33]
            13 1234) = Some 0xFAF6CDB3.
Proof. vm_compute. repeat split; reflexivity. Qed.

(** ** Variant B under the ISO C reading of [<<] on [int] *)

Lemma int_small x : - 2 ^ 31 <= x < 2 ^ 31 -> int x = x.
Proof.
  intros H. unfold int. rewrite Z.mod_small by lia. lia.
Qed.

(** Where the result fits in [int] the two readings agree; a byte of 128
    or more shifted by 24 does not fit. *)
Lemma shl_int_iso_fits x k t :
  0 <= k < 32 -> 0 <= x -> Z.shiftl x k < 2 ^ 31 ->
  shl_int_iso x k t = shl_int x k t.
Proof.
  intros Hk Hx Hfit. unfold shl_int_iso, shl_int.
  assert (Hc : count_ok k = true) by (apply count_ok_spec; lia).
  rewrite Hc.
  assert (H0 : (0 <=? x) = true) by (apply Z.leb_le; lia).
  assert (H1 : (Z.shiftl x k <? 2 ^ 31) = true) by (apply Z.ltb_lt; lia).
  rewrite H0, H1. cbn [andb]. unfold ret.
  rewrite int_small; [reflexivity |].
  pose proof (Z.shiftl_nonneg x k). lia.
Qed.

Lemma shl_int_run x k t :
  0 <= k < 32 -> shl_int x k t = Some (int (Z.shiftl x k), t).
Proof.
  intros Hk. unfold shl_int.
  assert (Hc : count_ok k = true) by (apply count_ok_spec; lia).
  rewrite Hc. reflexivity.
Qed.

Lemma shl_int_iso_byte x k t :
  0 <= x < 2 ^ 8 -> 0 <= k <= 16 -> shl_int_iso x k t = shl_int x k t.
Proof.
  intros Hx Hk. apply shl_int_iso_fits; [lia | lia |].
  rewrite Z.shiftl_mul_pow2 by lia.
  assert (2 ^ k <= 2 ^ 16) by (apply Z.pow_le_mono_r; lia).
  assert (0 < 2 ^ k) by (apply Z.pow_pos_nonneg; lia).
  nia.
Qed.

Lemma shl_int_iso_24 x t :
  0 <= x < 2 ^ 8 ->
  shl_int_iso x 24 t = if x <? 128 then shl_int x 24 t else None.
Proof.
  intros Hx. destruct (Z.ltb_spec x 128) as [H | H].
  - apply shl_int_iso_fits; [lia | lia |].
    rewrite Z.shiftl_mul_pow2 by lia. lia.
  - unfold shl_int_iso.
    assert (H1 : (Z.shiftl x 24 <? 2 ^ 31) = false).
    { apply Z.ltb_ge. rewrite Z.shiftl_mul_pow2 by lia. lia. }
    rewrite H1, andb_false_r. reflexivity.
Qed.

(** One word of the key: defined under the ISO C reading exactly when its
    most significant byte is below 128, and then the same word. *)
Lemma jenkins_word_iso_run pre b0 b1 b2 b3 rest i t :
  i = Z.of_nat (length pre) ->
  0 <= b1 < 2 ^ 8 -> 0 <= b2 < 2 ^ 8 -> 0 <= b3 < 2 ^ 8 ->
  jenkins_word_with shl_int_iso (pre ++ b0 :: b1 :: b2 :: b3 :: rest) i t =
  if b3 <? 128
  then jenkins_word (pre ++ b0 :: b1 :: b2 :: b3 :: rest) i t
  else None.
Proof.
  intros Hi H1 H2 H3.
  set (key := pre ++ b0 :: b1 :: b2 :: b3 :: rest).
  assert (L0 : load8 key i t = Some (b0, t))
    by (apply (load8_at_off pre [] b0); cbn [length]; lia).
  assert (L1 : load8 key (i + 1) t = Some (b1, t))
    by (apply (load8_at_off pre [b0] b1); cbn [length]; lia).
  assert (L2 : load8 key (i + 2) t = Some (b2, t))
    by (apply (load8_at_off pre [b0; b1] b2); cbn [length]; lia).
  assert (L3 : load8 key (i + 3) t = Some (b3, t))
    by (apply (load8_at_off pre [b0; b1; b2] b3); cbn [length]; lia).
  assert (R : jenkins_word key i t =
              Some (u32 (Z.lor (Z.lor (Z.lor b0 (int (Z.shiftl b1 8)))
                                  (int (Z.shiftl b2 16)))
                           (int (Z.shiftl b3 24))), t)).
  { unfold jenkins_word.
    eapply bind_run; [exact L0 |]. eapply bind_run; [exact L1 |].
    eapply bind_run; [apply shl_int_run; lia |].
    eapply bind_run; [exact L2 |].
    eapply bind_run; [apply shl_int_run; lia |].
    eapply bind_run; [exact L3 |].
    eapply bind_run; [apply shl_int_run; lia |].
    reflexivity. }
  rewrite R.
  unfold jenkins_word_with.
  eapply bind_run; [exact L0 |]. eapply bind_run; [exact L1 |].
  eapply bind_run;
    [rewrite shl_int_iso_byte by lia; apply shl_int_run; lia |].
  eapply bind_run; [exact L2 |].
  eapply bind_run;
    [rewrite shl_int_iso_byte by lia; apply shl_int_run; lia |].
  eapply bind_run; [exact L3 |].
  unfold bind. rewrite shl_int_iso_24 by lia.
  destruct (b3 <? 128); [| reflexivity].
  rewrite shl_int_run by lia. reflexivity.
Qed.

Lemma top_byte_of_word x :
  0 <= x < 2 ^ 32 ->
  ((x / 2 ^ 8 / 2 ^ 8 / 2 ^ 8) mod 2 ^ 8 <? 128) = (x <? 2 ^ 31).
Proof.
  intros Hx. rewrite !Z.div_div by lia.
  change (2 ^ 8 * 2 ^ 8 * 2 ^ 8) with (2 ^ 24).
  rewrite Z.mod_small
    by (split; [apply Z.div_pos; lia | apply Z.div_lt_upper_bound; lia]).
  destruct (Z.ltb_spec x (2 ^ 31)) as [H | H].
  - apply Z.ltb_lt. apply Z.div_lt_upper_bound; lia.
  - apply Z.ltb_ge. apply Z.div_le_lower_bound; lia.
Qed.

Lemma top_byte_of_port x :
  0 <= x < 2 ^ 16 -> ((x / 2 ^ 8) mod 2 ^ 8 <? 128) = (x <? 2 ^ 15).
Proof.
  intros Hx.
  rewrite Z.mod_small
    by (split; [apply Z.div_pos; lia | apply Z.div_lt_upper_bound; lia]).
  destruct (Z.ltb_spec x (2 ^ 15)) as [H | H].
  - apply Z.ltb_lt. apply Z.div_lt_upper_bound; lia.
  - apply Z.ltb_ge. apply Z.div_le_lower_bound; lia.
Qed.

(** The three words of a serialized valid key under the ISO C reading. *)
Lemma jenkins_words_iso_run k t :
  valid_key k ->
  jenkins_word_with shl_int_iso (serialize k) 0 t =
    (if source_address k <? 2 ^ 31
     then jenkins_word (serialize k) 0 t else None) /\
  jenkins_word_with shl_int_iso (serialize k) 4 t =
    (if destination_address k <? 2 ^ 31
     then jenkins_word (serialize k) 4 t else None) /\
  jenkins_word_with shl_int_iso (serialize k) 8 t =
    (if destination_port k <? 2 ^ 15
     then jenkins_word (serialize k) 8 t else None).
Proof.
  intros (Hsa & Hda & Hsp & Hdp & Hp).
  rewrite <- (top_byte_of_word (source_address k)) by exact Hsa.
  rewrite <- (top_byte_of_word (destination_address k)) by exact Hda.
  rewrite <- (top_byte_of_port (destination_port k)) by exact Hdp.
  unfold serialize. cbn [le_bytes app].
  split; [| split].
  - apply (jenkins_word_iso_run []); [reflexivity | apply byte_range ..].
  - match goal with
    | |- context [?a :: ?b :: ?c :: ?d :: ?rest] =>
        apply (jenkins_word_iso_run [a; b; c; d]);
          [reflexivity | apply byte_range ..]
    end.
  - match goal with
    | |- context [?a :: ?b :: ?c :: ?d :: ?e :: ?f :: ?g :: ?h :: ?rest] =>
        apply (jenkins_word_iso_run [a; b; c; d; e; f; g; h]);
          [reflexivity | apply byte_range ..]
    end.
Qed.

Lemma hashB_iso_run junk k seed t :
  length junk = 13%nat -> valid_key k ->
  hashB_iso junk k seed t =
  if (source_address k <? 2 ^ 31) && (destination_address k <? 2 ^ 31) &&
     (destination_port k <? 2 ^ 15)
  then hashB junk k seed t else None.
Proof.
  intros Hlen Hk.
  pose proof (jenkins_pack_run junk k t Hlen) as Hpack. unfold packB in Hpack.
  destruct (jenkins_words_iso_run k t Hk) as (I0 & I1 & I2).
  destruct (jenkins_words_run k t Hk) as (W0 & W1 & W2 & _).
  unfold hashB_iso, hashB, jenkins_hash_5tuple_with, jenkins_hash_5tuple.
  cbv zeta.
  destruct (source_address k <? 2 ^ 31); cbn [andb].
  2: { eapply bind_run; [exact Hpack |]. unfold bind. rewrite I0.
       reflexivity. }
  rewrite W0 in I0.
  destruct (destination_address k <? 2 ^ 31); cbn [andb].
  2: { eapply bind_run; [exact Hpack |].
       eapply bind_run; [exact I0 |]. unfold bind. rewrite I1.
       reflexivity. }
  rewrite W1 in I1.
  destruct (destination_port k <? 2 ^ 15).
  2: { eapply bind_run; [exact Hpack |].
       eapply bind_run; [exact I0 |].
       eapply bind_run; [exact I1 |]. unfold bind. rewrite I2.
       reflexivity. }
  rewrite W2 in I2.
  eapply bind_run; [exact Hpack |]. symmetry.
  eapply bind_run; [exact Hpack |]. symmetry.
  eapply bind_run; [exact I0 |]. symmetry.
  eapply bind_run; [exact W0 |]. symmetry.
  eapply bind_run; [exact I1 |]. symmetry.
  eapply bind_run; [exact W1 |]. symmetry.
  eapply bind_run; [exact I2 |]. symmetry.
  eapply bind_run; [exact W2 |].
  reflexivity.
Qed.

(** X13. Under the ISO C reading of [<<] on [int], [jenkins_hash_5tuple]
    is defined on a valid 5-tuple exactly when the source address and the
    destination address are below 2^31 and the destination port is below
    2^15 (the bytes it shifts by 24 are below 128); where it is defined it
    runs as under the wrapping reading and returns the same digest. *)
Theorem jenkins_defined_in_iso_c junk k seed :
  length junk = 13%nat -> valid_key k ->
  (result (hashB_iso junk k seed) <> None <->
   source_address k < 2 ^ 31 /\ destination_address k < 2 ^ 31 /\
   destination_port k < 2 ^ 15) /\
  (result (hashB_iso junk k seed) <> None ->
   forall t, hashB_iso junk k seed t = hashB junk k seed t).
Proof.
  intros Hlen Hk.
  assert (Hrun : forall t, hashB_iso junk k seed t =
            if (source_address k <? 2 ^ 31) &&
               (destination_address k <? 2 ^ 31) &&
               (destination_port k <? 2 ^ 15)
            then hashB junk k seed t else None)
    by (intros t; apply hashB_iso_run; assumption).
  pose proof (result_run _ _ _ (jenkins_hash_5tuple_run junk k seed [] Hlen))
    as HB.
  unfold result in *. rewrite (Hrun []).
  destruct (Z.ltb_spec (source_address k) (2 ^ 31)) as [H0 | H0];
    destruct (Z.ltb_spec (destination_address k) (2 ^ 31)) as [H1 | H1];
    destruct (Z.ltb_spec (destination_port k) (2 ^ 15)) as [H2 | H2];
    cbn [andb].
  1: { split.
       - split; [intros _; auto | intros _; rewrite HB; discriminate].
       - intros _ t. rewrite (Hrun t).
         assert (E0 : (source_address k <? 2 ^ 31) = true)
           by (apply Z.ltb_lt; exact H0).
         assert (E1 : (destination_address k <? 2 ^ 31) = true)
           by (apply Z.ltb_lt; exact H1).
         assert (E2 : (destination_port k <? 2 ^ 15) = true)
           by (apply Z.ltb_lt; exact H2).
         rewrite ?E0, ?E1, ?E2. reflexivity. }
  all: split; [split; [intros H; exfalso; apply H; reflexivity | lia]
              | intros H; exfalso; apply H; reflexivity].
Qed.

Lemma jenkins_defined_in_iso_c_witness :
  let k := {| source_address := 0x0A000001; destination_address := 0x08080808;
              source_port := 443; destination_port := 80; protocol := 6 |} in
  (length sample_junk = 13%nat /\ valid_key k) /\
  (result (hashB_iso sample_junk k sample_seed) <> None <->
   source_address k < 2 ^ 31 /\ destination_address k < 2 ^ 31 /\
   destination_port k < 2 ^ 15).
Proof.
  intros k.
  assert (Hk : valid_key k) by (unfold valid_key, k; cbn; lia).
  split; [split; [reflexivity | exact Hk] |].
  apply (jenkins_defined_in_iso_c sample_junk k sample_seed);
    [reflexivity | exact Hk].
Defined.
